(** * Flappy Claude: the simulation core of [flappy_claude/game.py]

    A shallow embedding of the per-frame engine ([update_game],
    [spawn_pipe], [handle_input], [_is_pipe_at]) and of the readiness
    probe of [flappy_claude/ipc.py], with the properties the
    specification states about them.

    Conventions.
    - Python [int] is [Z]; the [float] values of the configuration and
      of the bird are idealised as exact rationals [Q] (the default
      configuration only uses dyadic values, on which binary floating
      point is exact).  Where the code turns an [int] into a float, in
      the bounds of [_is_pipe_at], the rounding of binary64 is written
      out ([round53]).
    - [int(f)] on a float truncates toward zero: [int_of_float].
    - In-place mutation of the single, exclusively owned [GameState] is
      explicit state passing.
    - [random.randint] consumes one raw integer of entropy, an explicit
      argument of the functions that draw.
    - The calls of [save_high_score] are recorded in a log carried next
      to the state. *)

From Stdlib Require Import ZArith QArith Qminmax List Bool Lia String Ascii.
From Stdlib Require Import Sorted.
Import ListNotations.

Local Open Scope Z_scope.

(* ================================================================== *)
(** ** Python primitives *)

(** [int(q)]: truncation toward zero of a (rational) float. *)
Definition int_of_float (q : Q) : Z := Z.quot (Qnum q) (Zpos (Qden q)).

(** The integer a binary64 float holds when it is given the integer [m]:
    [m] itself below [2^53], and above it [m] rounded to 53 significant
    bits, ties to the even significand.  This is the conversion of an
    [int] operand of a float operation ([float(m)]), and the rounding of
    a sum or difference of floats whose exact value is the integer [m].
    Integers below [2^1023] in magnitude all have a float, and so has
    the sum of one and half of another; larger ones, on which Python
    raises [OverflowError], are outside the model. *)
Definition round53 (m : Z) : Z :=
  if Z.abs m <? 2 ^ 53 then m
  else
    let s := Z.log2 (Z.abs m) - 52 in
    let q := Z.abs m / 2 ^ s in
    let r := Z.abs m mod 2 ^ s in
    let half := 2 ^ (s - 1) in
    let q' := if r <? half then q
              else if half <? r then q + 1
              else if Z.even q then q else q + 1 in
    Z.sgn m * (q' * 2 ^ s).

(** [min(a, b)]: Python returns [b] only when [b < a]. *)
Definition py_min (a b : Q) : Q := if Qle_bool a b then a else b.

(** Exceptions the modelled code can meet.  [IOError] is an alias of
    [OSError] in Python 3; [UnicodeDecodeError] is a [ValueError]. *)
Inductive exn : Type :=
| OSError
| ValueError
| UnicodeDecodeError.

Inductive Result (A : Type) : Type :=
| Ok (a : A)
| Raise (e : exn).
Arguments Ok {A} a.
Arguments Raise {A} e.

Definition bind {A B : Type} (m : Result A) (k : A -> Result B) : Result B :=
  match m with
  | Ok a => k a
  | Raise e => Raise e
  end.

Notation "x <- m ;; k" := (bind m (fun x => k))
  (at level 61, m at next level, right associativity).

(** [random.randint(a, b)]: a value of [a .. b], both ends included;
    [ValueError] on an empty range.  [r] is the raw entropy consumed. *)
Definition randint (r : Z) (a b : Z) : Result Z :=
  if b <? a then Raise ValueError else Ok (a + r mod (b - a + 1)).

(* ================================================================== *)
(** ** config.py *)

Record Config : Type := mkConfig {
  gravity : Q;
  flap_strength : Q;
  terminal_velocity : Q;
  pipe_speed : Z;
  pipe_gap : Z;
  pipe_spacing : Z;
  pipe_width : Z;
  fps : Z;
  screen_width : Z;
  screen_height : Z;
  death_display_time : Q;
  high_score_path : string;
  signal_file_path : string
}.

Definition DEFAULT_CONFIG : Config := {|
  gravity := 1 # 2;
  flap_strength := (-2) # 1;
  terminal_velocity := 8 # 1;
  pipe_speed := 1;
  pipe_gap := 7;
  pipe_spacing := 25;
  pipe_width := 4;
  fps := 30;
  screen_width := 60;
  screen_height := 20;
  death_display_time := 1 # 1;
  high_score_path := "~/.flappy-claude/highscore";
  signal_file_path := "/tmp/flappy-claude-signal"
|}.

(* ================================================================== *)
(** ** entities.py (imported by game.py, not part of the sources)

    The classes are reconstructed from the attributes game.py reads and
    writes and from the data model of the specification. *)

Inductive GameStatus : Type := PLAYING | DEAD | PROMPTED | EXITING.
Inductive GameMode : Type := SINGLE_LIFE | AUTO_RESTART.

Definition GameStatus_eqb (a b : GameStatus) : bool :=
  match a, b with
  | PLAYING, PLAYING | DEAD, DEAD | PROMPTED, PROMPTED | EXITING, EXITING => true
  | _, _ => false
  end.

Module Bird.
Record t : Type := mk { x : Z; y : Q; velocity : Q }.

(** Modelled from the spec: [Bird.flap] is missing; "sets velocity' =
    flapStrength (overriding, not adding to, current velocity) and
    leaves y unchanged". *)
Definition flap (b : t) (config : Config) : t :=
  mk (x b) (y b) (flap_strength config).
End Bird.

Module Pipe.
(** The fields game.py uses.  The width of a pipe is read by game.py
    from the configuration at every use ([config.pipe_width]). *)
Record t : Type := mk { x : Z; gap_y : Z; gap_size : Z; passed : bool }.

(** The constructor call of [spawn_pipe], [Pipe(x=, gap_y=, gap_size=)].
    Modelled from the spec: the default of the field it leaves out is
    missing; a spawned obstacle has "passed = false". *)
Definition new (x gap_y gap_size : Z) : t := mk x gap_y gap_size false.

(** Modelled from the spec: [Pipe.update] is missing;
    "advance(obstacle, config): x' = x - pipeSpeed". *)
Definition update (p : t) (config : Config) : t :=
  mk (x p - pipe_speed config) (gap_y p) (gap_size p) (passed p).

(** Modelled from the spec: [Pipe.mark_passed] is missing; scoring
    "sets passed = true". *)
Definition mark_passed (p : t) : t :=
  mk (x p) (gap_y p) (gap_size p) true.
End Pipe.

Record GameState : Type := mkGameState {
  bird : Bird.t;
  pipes : list Pipe.t;
  score : Z;
  high_score : Z;
  status : GameStatus;
  mode : GameMode;
  claude_ready : bool
}.

Definition set_bird (s : GameState) (b : Bird.t) : GameState :=
  mkGameState b (pipes s) (score s) (high_score s) (status s) (mode s) (claude_ready s).
Definition set_pipes (s : GameState) (ps : list Pipe.t) : GameState :=
  mkGameState (bird s) ps (score s) (high_score s) (status s) (mode s) (claude_ready s).
Definition set_score (s : GameState) (n : Z) : GameState :=
  mkGameState (bird s) (pipes s) n (high_score s) (status s) (mode s) (claude_ready s).
Definition set_high_score (s : GameState) (n : Z) : GameState :=
  mkGameState (bird s) (pipes s) (score s) n (status s) (mode s) (claude_ready s).
Definition set_status (s : GameState) (st : GameStatus) : GameState :=
  mkGameState (bird s) (pipes s) (score s) (high_score s) st (mode s) (claude_ready s).
Definition set_claude_ready (s : GameState) (b : bool) : GameState :=
  mkGameState (bird s) (pipes s) (score s) (high_score s) (status s) (mode s) b.

(* ================================================================== *)
(** ** game.py: [_is_pipe_at] *)

(** [int(pipe.gap_y - pipe.gap_size / 2)], line 204.  [gap_size / 2] is
    a true division: its result is the float nearest to the half, which
    is half the float of [gap_size].  [gap_y] is then converted to a
    float and the difference is rounded once more.  Halving is exact in
    binary64, so the float of the difference is half of
    [round53 (2 * round53 gap_y - round53 gap_size)], and [int]
    truncates it toward zero. *)
Definition gap_top (pipe : Pipe.t) : Z :=
  int_of_float
    (inject_Z (round53 (2 * round53 (Pipe.gap_y pipe) - round53 (Pipe.gap_size pipe))) / 2)%Q.

(** [int(pipe.gap_y + pipe.gap_size / 2)], line 205. *)
Definition gap_bottom (pipe : Pipe.t) : Z :=
  int_of_float
    (inject_Z (round53 (2 * round53 (Pipe.gap_y pipe) + round53 (Pipe.gap_size pipe))) / 2)%Q.

Definition _is_pipe_at (pipe : Pipe.t) (config : Config) (col row : Z) : bool :=
  if (col <? Pipe.x pipe) || (col >=? Pipe.x pipe + pipe_width config) then false
  else if (gap_top pipe <=? row) && (row <=? gap_bottom pipe) then false
  else true.

(* ================================================================== *)
(** ** physics.py and scores.py (imported by game.py, not part of the
    sources) *)

Module physics.

(** The row of the grid the bird is in, [int(bird.y)], as
    [_get_char_at] computes it. *)
Definition bird_row (b : Bird.t) : Z := int_of_float (Bird.y b).

(** Modelled from the spec: [apply_gravity] is missing; "velocity' =
    min(velocity + gravity, terminalVelocity); y' = y + velocity'". *)
Definition apply_gravity (b : Bird.t) (config : Config) : Bird.t :=
  let v := py_min (Bird.velocity b + gravity config)%Q (terminal_velocity config) in
  Bird.mk (Bird.x b) (Bird.y b + v)%Q v.

(** Modelled from the spec: the obstacle test of [check_collision] is
    missing; "true iff bird's column falls within [obstacle.x,
    obstacle.x + width) AND bird's row falls outside [gapCenter -
    gapSize/2, gapCenter + gapSize/2] (gap bounds computed with
    truncation toward zero, i.e., floor semantics on the resulting
    coordinate)".  The half is the integer half of the gap size, the
    "floor-divided halves" of the specification's notes on scenario B,
    where centre 10 and size 7 give the band 7 .. 13: Python's
    [gap_size // 2], the division [spawn_pipe] uses for its margin.
    These are not the bounds [_is_pipe_at] draws with. *)
Definition is_inside_obstacle (b : Bird.t) (pipe : Pipe.t) (config : Config) : bool :=
  ((Pipe.x pipe <=? Bird.x b) && (Bird.x b <? Pipe.x pipe + pipe_width config))
  && ((bird_row b <? Pipe.gap_y pipe - Pipe.gap_size pipe / 2)
      || (bird_row b >? Pipe.gap_y pipe + Pipe.gap_size pipe / 2)).

(** Modelled from the spec: [check_collision] is missing; "true if
    bird's row is < 0 or > fieldHeight - 1, OR isInsideObstacle is true
    for any live obstacle".  The call in [update_game] hands over the
    bird, the pipes and [config.screen_height]; the width every pipe has
    in game.py, [config.pipe_width], comes with [config]. *)
Definition check_collision (config : Config) (b : Bird.t) (ps : list Pipe.t)
    (screen_height : Z) : bool :=
  (bird_row b <? 0) || (bird_row b >? screen_height - 1)
  || existsb (fun pipe => is_inside_obstacle b pipe config) ps.

(** Modelled from the spec: [check_pipe_passed] is missing; "true once
    bird's column has advanced strictly past the obstacle's trailing
    edge (bird.x > obstacle.x + width - 1) and the obstacle's passed
    flag is still false". *)
Definition check_pipe_passed (config : Config) (b : Bird.t) (pipe : Pipe.t) : bool :=
  (Bird.x b >? Pipe.x pipe + pipe_width config - 1) && negb (Pipe.passed pipe).

End physics.

(** The state of a session together with the high-score store.  [saves]
    lists the values handed to [save_high_score], the latest first; the
    path is always [Path(config.high_score_path).expanduser()]. *)
Record World : Type := mkWorld {
  game : GameState;
  saves : list Z
}.

(** Modelled from the spec: [save_high_score] is missing; the store
    holds "a single integer value", so after a write it holds the value
    written last. *)
Definition persisted (initial : Z) (w : World) : Z := hd initial (saves w).

(* ================================================================== *)
(** ** game.py: [spawn_pipe] *)

Definition spawn_margin (config : Config) : Z := pipe_gap config / 2 + 2.

Definition spawn_pipe (r : Z) (state : GameState) (config : Config) : Result GameState :=
  let margin := spawn_margin config in
  gap_y <- randint r margin (screen_height config - margin) ;;
  let pipe := Pipe.new (screen_width config) gap_y (pipe_gap config) in
  Ok (set_pipes state (pipes state ++ [pipe])).

(* ================================================================== *)
(** ** game.py: [update_game] *)

(** [not state.pipes or state.pipes[-1].x < screen_width - pipe_spacing] *)
Definition spawn_due (config : Config) (ps : list Pipe.t) : bool :=
  match ps with
  | [] => true
  | p0 :: _ => Pipe.x (last ps p0) <? screen_width config - pipe_spacing config
  end.

(** One round of the scoring loop, lines 260-267.  The path handed to
    [save_high_score], [Path(config.high_score_path).expanduser()], is
    taken to resolve: a path that starts with [~] in a process whose
    home directory cannot be found makes [expanduser] raise
    [RuntimeError], and that failure of the environment is not
    modelled. *)
Definition score_pipe (config : Config) (pipe : Pipe.t) (w : World) : Pipe.t * World :=
  let state := game w in
  if negb (Pipe.passed pipe) && physics.check_pipe_passed config (bird state) pipe then
    let pipe := Pipe.mark_passed pipe in
    let state := set_score state (score state + 1) in
    if score state >? high_score state then
      let state := set_high_score state (score state) in
      (pipe, mkWorld state (high_score state :: saves w))
    else (pipe, mkWorld state (saves w))
  else (pipe, w).

(** The scoring loop over [state.pipes]; the pipes are mutated where
    they stand, so the list is rebuilt in the same order. *)
Fixpoint score_pipes (config : Config) (ps : list Pipe.t) (w : World)
    : list Pipe.t * World :=
  match ps with
  | [] => ([], w)
  | pipe :: rest =>
      let (pipe', w') := score_pipe config pipe w in
      let (rest', w'') := score_pipes config rest w' in
      (pipe' :: rest', w'')
  end.

(** The pipes of a Playing frame after the advance and the retirement,
    lines 248-252. *)
Definition advance_and_retire (config : Config) (ps : list Pipe.t) : list Pipe.t :=
  filter (fun p => Pipe.x p >? - pipe_width config)
         (map (fun pipe => Pipe.update pipe config) ps).

Definition update_game (r : Z) (w : World) (config : Config) : Result World :=
  let state := game w in
  if negb (GameStatus_eqb (status state) PLAYING) then Ok w
  else
    (* Update bird *)
    let updated_bird := physics.apply_gravity (bird state) config in
    let state := set_bird state
                   (Bird.mk (Bird.x (bird state)) (Bird.y updated_bird)
                            (Bird.velocity updated_bird)) in
    (* Update pipes, remove off-screen pipes *)
    let state := set_pipes state (advance_and_retire config (pipes state)) in
    (* Spawn new pipes *)
    state <- (if spawn_due config (pipes state)
              then spawn_pipe r state config else Ok state) ;;
    (* Check scoring *)
    let (ps, w) := score_pipes config (pipes state) (mkWorld state (saves w)) in
    let state := set_pipes (game w) ps in
    (* Check collision *)
    let state :=
      if physics.check_collision config (bird state) (pipes state) (screen_height config)
      then set_status state DEAD else state in
    Ok (mkWorld state (saves w)).

(* ================================================================== *)
(** ** game.py: [handle_input] *)

(** [str.lower] on the keys a terminal delivers: the letters A-Z are
    folded, every other byte stays. *)
Definition lower_ascii (c : ascii) : ascii :=
  let n := nat_of_ascii c in
  if (andb (Nat.leb 65 n) (Nat.leb n 90)) then ascii_of_nat (n + 32) else c.

Fixpoint lower (s : string) : string :=
  match s with
  | EmptyString => EmptyString
  | String c rest => String (lower_ascii c) (lower rest)
  end.

(** Ctrl+C, the string of the one byte 3. *)
Definition ctrl_c : string := String (ascii_of_nat 3) EmptyString.

Definition handle_input (state : GameState) (config : Config) (key : option string)
    : GameState :=
  match key with
  | None => state
  | Some key =>
      let key_lower := lower key in
      if String.eqb key_lower "q" || String.eqb key ctrl_c then
        set_status state EXITING
      else if String.eqb key " " && GameStatus_eqb (status state) PLAYING then
        set_bird state (Bird.flap (bird state) config)
      else if (String.eqb key_lower "y" || String.eqb key_lower "n")
              && GameStatus_eqb (status state) PROMPTED then
        if String.eqb key_lower "y" then set_status state EXITING
        else set_status (set_claude_ready state false) PLAYING
      else state
  end.

(* ================================================================== *)
(** ** ipc.py: [check_signal_file] *)

Module ipc.

(** A Python [str]: the sequence of its code points. *)
Definition str : Type := list N.

(** ["ready"] *)
Definition ready : str := [114; 101; 97; 100; 121]%N.

(** [str.isspace] on one code point: the characters [str.strip()]
    removes. *)
Definition isspace (c : N) : bool :=
  ((9 <=? c) && (c <=? 13) || (28 <=? c) && (c <=? 32)
   || (c =? 133) || (c =? 160) || (c =? 5760)
   || (8192 <=? c) && (c <=? 8202)
   || (c =? 8232) || (c =? 8233) || (c =? 8239) || (c =? 8287)
   || (c =? 12288))%N.

Fixpoint lstrip (s : str) : str :=
  match s with
  | c :: rest => if isspace c then lstrip rest else s
  | [] => []
  end.

Definition strip (s : str) : str := rev (lstrip (rev (lstrip s))).

Definition str_eqb (a b : str) : bool :=
  if list_eq_dec N.eq_dec a b then true else false.

(** What the file system holds at the path of the signal file. *)
Inductive node : Type :=
| Absent                               (* no such file *)
| StatFails                            (* [stat] fails, e.g. EACCES *)
| Directory
| File (readable : bool) (content : list Byte.byte).

(** The environment of a call: the node at the path, and the text layer
    of [read_text()] (the codec of the locale, strict), which gives
    [None] on bytes it cannot decode. *)
Record Env : Type := mkEnv {
  at_path : node;
  decode : list Byte.byte -> option str
}.

(** [path.exists()]: [OSError]s other than "no such file" propagate. *)
Definition exists_ (env : Env) : Result bool :=
  match at_path env with
  | Absent => Ok false
  | StatFails => Raise OSError
  | Directory | File _ _ => Ok true
  end.

(** [path.read_text()]: [open] fails with an [OSError] subclass
    ([FileNotFoundError], [IsADirectoryError], [PermissionError]); the
    decoding fails with [UnicodeDecodeError]. *)
Definition read_text (env : Env) : Result str :=
  match at_path env with
  | Absent | StatFails | Directory | File false _ => Raise OSError
  | File true content =>
      match decode env content with
      | Some s => Ok s
      | None => Raise UnicodeDecodeError
      end
  end.

(** [try: ... except (OSError, IOError): return False] *)
Definition except_OSError (body : Result bool) : Result bool :=
  match body with
  | Raise OSError => Ok false
  | other => other
  end.

Definition check_signal_file (env : Env) : Result bool :=
  except_OSError
    (present <- exists_ env ;;
     if negb present then Ok false
     else
       content <- read_text env ;;
       Ok (str_eqb (strip content) ready)).

(** *** A strict UTF-8 codec, the text layer of a UTF-8 locale *)

Definition is_cont (b : N) : bool := ((128 <=? b) && (b <=? 191))%N.

Fixpoint utf8_decode_fuel (fuel : nat) (bs : list N) : option str :=
  match fuel with
  | O => match bs with [] => Some [] | _ => None end
  | S fuel =>
      match bs with
      | [] => Some []
      | b0 :: rest =>
          if (b0 <? 128)%N then
            option_map (cons b0) (utf8_decode_fuel fuel rest)
          else if ((194 <=? b0) && (b0 <=? 223))%N then
            match rest with
            | b1 :: rest =>
                if is_cont b1
                then option_map (cons ((b0 - 192) * 64 + (b1 - 128))%N)
                                (utf8_decode_fuel fuel rest)
                else None
            | _ => None
            end
          else if ((224 <=? b0) && (b0 <=? 239))%N then
            match rest with
            | b1 :: b2 :: rest =>
                let c := ((b0 - 224) * 4096 + (b1 - 128) * 64 + (b2 - 128))%N in
                if is_cont b1 && is_cont b2 && (2048 <=? c)%N
                   && negb ((55296 <=? c) && (c <=? 57343))%N
                then option_map (cons c) (utf8_decode_fuel fuel rest)
                else None
            | _ => None
            end
          else if ((240 <=? b0) && (b0 <=? 244))%N then
            match rest with
            | b1 :: b2 :: b3 :: rest =>
                let c := ((b0 - 240) * 262144 + (b1 - 128) * 4096
                          + (b2 - 128) * 64 + (b3 - 128))%N in
                if is_cont b1 && is_cont b2 && is_cont b3
                   && (65536 <=? c)%N && (c <=? 1114111)%N
                then option_map (cons c) (utf8_decode_fuel fuel rest)
                else None
            | _ => None
            end
          else None
      end
  end.

Definition utf8_decode (bs : list Byte.byte) : option str :=
  utf8_decode_fuel (List.length bs) (map Byte.to_N bs).

End ipc.

(* ================================================================== *)
(** ** The session around the frame: resets, input, the ready prompt *)

(** Modelled from the spec: [GameState.reset] is missing; "a full
    reset: score -> 0, obstacle collection cleared, bird reset to
    initial position/velocity, ready-flag cleared; high score is
    preserved across resets", and the status returns to Playing.  The
    initial bird is not in the sources and is an argument. *)
Definition reset (initial_bird : Bird.t) (state : GameState) : GameState :=
  mkGameState initial_bird [] 0 (high_score state) PLAYING (mode state) false.

(** What [run_game_loop] does to the state, one action at a time:
    the key of the frame, the readiness prompt (lines 358-361, [ready]
    is the answer of [check_signal_file]), the frame itself with the
    entropy it may consume, and the reset after a death. *)
Inductive action : Type :=
| Key (key : option string)
| Signal (ready : bool)
| Frame (r : Z)
| Restart (initial_bird : Bird.t).

Definition observe_signal (state : GameState) (ready : bool) : GameState :=
  if GameStatus_eqb (status state) PLAYING then
    if negb (claude_ready state) && ready
    then set_status (set_claude_ready state true) PROMPTED
    else state
  else state.

Definition perform (config : Config) (a : action) (w : World) : Result World :=
  match a with
  | Key key => Ok (mkWorld (handle_input (game w) config key) (saves w))
  | Signal ready => Ok (mkWorld (observe_signal (game w) ready) (saves w))
  | Frame r => update_game r w config
  | Restart b0 => Ok (mkWorld (reset b0 (game w)) (saves w))
  end.

Fixpoint run (config : Config) (acts : list action) (w : World) : Result World :=
  match acts with
  | [] => Ok w
  | a :: rest => w' <- perform config a w ;; run config rest w'
  end.

(* ================================================================== *)
(** ** The specification's wording, for comparison with the code *)

(** The gap band of the specification, "[gapCenter - gapSize/2,
    gapCenter + gapSize/2] (gap bounds computed with truncation toward
    zero, i.e., floor semantics on the resulting coordinate)", with the
    "floor-divided halves" of its notes on scenario B: the half of the
    gap size is taken as an integer first, and the centre moves by it.
    For a gap size that is not negative the floor of the half is its
    truncation toward zero. *)
Definition band_low (pipe : Pipe.t) : Z :=
  Pipe.gap_y pipe - Pipe.gap_size pipe / 2.
Definition band_high (pipe : Pipe.t) : Z :=
  Pipe.gap_y pipe + Pipe.gap_size pipe / 2.

(** "the bird's column lies in [obstacle.x, obstacle.x + width)" *)
Definition in_span (config : Config) (pipe : Pipe.t) (col : Z) : Prop :=
  Pipe.x pipe <= col < Pipe.x pipe + pipe_width config.

(** Collision as the specification words it. *)
Definition collision_spec (config : Config) (b : Bird.t) (ps : list Pipe.t)
    (fieldHeight : Z) : Prop :=
  let row := physics.bird_row b in
  row < 0 \/ row > fieldHeight - 1 \/
  exists pipe, In pipe ps /\ in_span config pipe (Bird.x b)
               /\ ~ (band_low pipe <= row <= band_high pipe).

(** The position and shape of a pipe, without its [passed] flag. *)
Definition geometry (p : Pipe.t) : Z * Z * Z :=
  (Pipe.x p, Pipe.gap_y p, Pipe.gap_size p).

(** Sequences of pipes ordered by their [x], first to last. *)
Definition increasing_x (ps : list Pipe.t) : Prop :=
  StronglySorted (fun p q => Pipe.x p < Pipe.x q) ps.
Definition decreasing_x (ps : list Pipe.t) : Prop :=
  StronglySorted (fun p q => Pipe.x p > Pipe.x q) ps.

(** The pass events of a frame: the slots whose flag went from false to
    true between the pipes that enter the scoring loop and the pipes
    that leave it. *)
Definition pass_events (before after : list Pipe.t) : Z :=
  Z.of_nat (List.length
    (filter (fun pq => negb (Pipe.passed (fst pq)) && Pipe.passed (snd pq))
            (combine before after))).

(** The range [spawn_pipe] draws the gap centre from is not empty. *)
Definition spawn_range_ok (config : Config) : Prop :=
  spawn_margin config <= screen_height config - spawn_margin config.

(** Retirement as the specification words it: an obstacle goes once
    [x <= -width]. *)
Definition retire_spec (config : Config) (ps : list Pipe.t) : list Pipe.t :=
  filter (fun p => negb (Pipe.x p <=? - pipe_width config)) ps.

(** The spawn trigger as the specification words it. *)
Definition spawn_trigger_spec (config : Config) (ps : list Pipe.t) : Prop :=
  ps = [] \/
  exists older newest, ps = older ++ [newest]
    /\ Pipe.x newest < screen_width config - pipe_spacing config.

(** How the score, the high score and the store may move from [w0] to
    [w1]: the score and the high score only grow, a new record is the
    score that set it and is saved at once, newest first. *)
Definition record_progress (w0 w1 : World) : Prop :=
  score (game w0) <= score (game w1)
  /\ high_score (game w0) <= high_score (game w1)
  /\ high_score (game w1) <= Z.max (high_score (game w0)) (score (game w1))
  /\ (score (game w1) = score (game w0) ->
        high_score (game w1) = high_score (game w0) /\ saves w1 = saves w0)
  /\ (score (game w0) < score (game w1) ->
        high_score (game w0) < score (game w1) ->
        high_score (game w1) = score (game w1))
  /\ exists news, saves w1 = news ++ saves w0
       /\ match news with
          | [] => high_score (game w1) = high_score (game w0)
          | v :: _ => v = high_score (game w1)
                      /\ high_score (game w0) < high_score (game w1)
          end.

(** The scoring loop leaves the other fields of the state alone. *)
Definition scoring_progress (w0 w1 : World) : Prop :=
  bird (game w1) = bird (game w0)
  /\ pipes (game w1) = pipes (game w0)
  /\ status (game w1) = status (game w0)
  /\ mode (game w1) = mode (game w0)
  /\ claude_ready (game w1) = claude_ready (game w0)
  /\ record_progress w0 w1.

(** How the scoring loop may change one pipe. *)
Definition pipe_progress (p p' : Pipe.t) : Prop :=
  geometry p' = geometry p /\ (Pipe.passed p = true -> Pipe.passed p' = true).

(** The pipes of a state that are still live after its next frame: a
    Playing frame advances and retires, any other frame keeps them. *)
Definition survivors (config : Config) (state : GameState) : list Pipe.t :=
  match status state with
  | PLAYING => retire_spec config
                 (map (fun p => Pipe.update p config) (pipes state))
  | _ => pipes state
  end.


(** How the high score and the store may move over any stretch of a
    session: the high score only grows, and whenever it grew the value
    saved last is the high score. *)
Definition store_progress (w0 w1 : World) : Prop :=
  high_score (game w0) <= high_score (game w1)
  /\ exists news, saves w1 = news ++ saves w0
       /\ match news with
          | [] => high_score (game w1) = high_score (game w0)
          | v :: _ => v = high_score (game w1)
                      /\ high_score (game w0) < high_score (game w1)
          end.


(** The number of centres [spawn_pipe] draws from. *)
Definition spawn_choices (config : Config) : Z :=
  screen_height config - spawn_margin config - spawn_margin config + 1.


(* ================================================================== *)
(** ** game.py: [_get_char_at] and the game area of [render_game] *)

(** The three characters [_get_char_at] returns: the bird, the full
    block of a pipe, and the space. *)
Inductive glyph : Type := BIRD_GLYPH | BLOCK_GLYPH | BLANK_GLYPH.

Definition glyph_eqb (a b : glyph) : bool :=
  match a, b with
  | BIRD_GLYPH, BIRD_GLYPH | BLOCK_GLYPH, BLOCK_GLYPH
  | BLANK_GLYPH, BLANK_GLYPH => true
  | _, _ => false
  end.

Definition _get_char_at (state : GameState) (config : Config) (col row : Z) : glyph :=
  let bird_row := int_of_float (Bird.y (bird state)) in
  if (col =? Bird.x (bird state)) && (row =? bird_row) then BIRD_GLYPH
  else if existsb (fun pipe => _is_pipe_at pipe config col row) (pipes state)
       then BLOCK_GLYPH
       else BLANK_GLYPH.

(** [range(n)]: [0, 1, ..., n-1], empty when [n <= 0]. *)
Definition py_range (n : Z) : list Z := map Z.of_nat (seq 0 (Z.to_nat n)).

(** The game area of [render_game], lines 46-51: one line per row of
    the screen, one character per column. *)
Definition game_area (state : GameState) (config : Config) : list (list glyph) :=
  map (fun row =>
         map (fun col => _get_char_at state config col row)
             (py_range (screen_width config)))
      (py_range (screen_height config)).

(** How many cells of a picture show a given character. *)
Definition count_glyph (g : glyph) (picture : list (list glyph)) : nat :=
  List.length (filter (glyph_eqb g) (List.concat picture)).

(* ================================================================== *)
(** ** ipc.py: [delete_signal_file] and [create_signal_file] *)

(** What the process may do at the path of the signal file: add or
    remove an entry of its directory, update the times of an existing
    entry, and read a file it has just created (the umask).
    [path_refused] says that the path cannot be handed to the system:
    it holds a NUL character, or a character the encoding of file names
    cannot encode.  No entry can exist at such a path, and the system
    calls that take it fail with a [ValueError] ([UnicodeEncodeError] is
    one) before they reach the file system. *)
Record Access : Type := mkAccess {
  may_change_dir : bool;
  may_touch : bool;
  created_readable : bool;
  path_refused : bool
}.

Definition put (env : ipc.Env) (n : ipc.node) : ipc.Env :=
  ipc.mkEnv n (ipc.decode env).

(** [path.unlink()]: fails with an [OSError] subclass on a missing
    entry, on a directory, and when the directory may not be changed. *)
Definition unlink (acc : Access) (env : ipc.Env) : Result ipc.Env :=
  match ipc.at_path env with
  | ipc.File _ _ => if may_change_dir acc then Ok (put env ipc.Absent)
                    else Raise OSError
  | ipc.Absent | ipc.StatFails | ipc.Directory => Raise OSError
  end.

(** [path.touch()]: an existing entry only has its times updated; a
    missing one is created as an empty file.  A path the system
    refuses raises a [ValueError], which is not an [OSError]. *)
Definition touch (acc : Access) (env : ipc.Env) : Result ipc.Env :=
  if path_refused acc then Raise ValueError
  else
    match ipc.at_path env with
    | ipc.Absent => if may_change_dir acc
                    then Ok (put env (ipc.File (created_readable acc) []))
                    else Raise OSError
    | ipc.StatFails => Raise OSError
    | ipc.Directory | ipc.File _ _ => if may_touch acc then Ok env else Raise OSError
    end.

(** [try: ... except (OSError, IOError): pass], for a body that leaves
    the file system as it was when it fails. *)
Definition except_OSError_pass (env : ipc.Env) (body : Result ipc.Env)
    : Result ipc.Env :=
  match body with
  | Raise OSError => Ok env
  | other => other
  end.

Definition delete_signal_file (acc : Access) (env : ipc.Env) : Result ipc.Env :=
  except_OSError_pass env
    (present <- ipc.exists_ env ;;
     if present then unlink acc env else Ok env).

Definition create_signal_file (acc : Access) (env : ipc.Env) : Result ipc.Env :=
  except_OSError_pass env (touch acc env).

(* ================================================================== *)
(** ** game.py: one turn of the loop of [run_game_loop], lines 353-379

    The display and the frame timing do not touch the state and are
    left out. *)

(** The truth value of a key: [None] and the empty string are false. *)
Definition truthy (k : option string) : bool :=
  match k with
  | Some (String _ _) => true
  | _ => false
  end.

(** The wait of the single-life mode, lines 374-378: poll until a key is
    true.  [polls] are the answers of [get_key_nonblocking] to come;
    the result says whether one of them ends the wait. *)
Fixpoint wait_any_key (polls : list (option string)) : bool :=
  match polls with
  | [] => false
  | k :: rest => if truthy k then true else wait_any_key rest
  end.

(** Lines 358-361.  [signal_file] is [None] when no signal file was
    given, and otherwise what the file system holds at its path. *)
Definition poll_signal (signal_file : option ipc.Env) (state : GameState)
    : Result GameState :=
  match signal_file with
  | Some env =>
      if GameStatus_eqb (status state) PLAYING then
        if negb (claude_ready state) then
          ready <- ipc.check_signal_file env ;;
          if ready then Ok (set_status (set_claude_ready state true) PROMPTED)
          else Ok state
        else Ok state
      else Ok state
  | None => Ok state
  end.

(** One turn of the loop, from the key [get_key_nonblocking] has
    returned at line 354 on: [key] is that key, so a turn in which the
    read of the terminal itself fails is not a run of [loop_turn].
    [None] stands for a turn that is still in the wait of the
    single-life mode when [polls] runs out. *)
Definition loop_turn (initial_bird : Bird.t) (config : Config)
    (signal_file : option ipc.Env) (key : option string) (r : Z)
    (polls : list (option string)) (w : World) : Result (option World) :=
  (* Handle input *)
  let state := handle_input (game w) config key in
  (* Check signal file for Claude ready (only when playing) *)
  state <- poll_signal signal_file state ;;
  (* Update game *)
  w <- update_game r (mkWorld state (saves w)) config ;;
  (* Handle death *)
  if GameStatus_eqb (status (game w)) DEAD then
    match mode (game w) with
    | AUTO_RESTART => Ok (Some (mkWorld (reset initial_bird (game w)) (saves w)))
    | SINGLE_LIFE =>
        if wait_any_key polls
        then Ok (Some (mkWorld (set_status (game w) EXITING) (saves w)))
        else Ok None
    end
  else Ok (Some w).

(* ================================================================== *)
(** ** Invariants of the obstacle stream and of the store *)

(** A live pipe is inside the window: right of the retirement line and
    not right of the spawn column. *)
Definition in_window (config : Config) (p : Pipe.t) : Prop :=
  - pipe_width config < Pipe.x p <= screen_width config.

(** Any two live pipes are more than the spacing apart, the earlier in
    the list being the one on the left. *)
Definition spaced (config : Config) (ps : list Pipe.t) : Prop :=
  StronglySorted (fun p q => Pipe.x p + pipe_spacing config < Pipe.x q) ps.

(** A pipe has the shape [spawn_pipe] gives: the gap size of the
    configuration and a gap centre of the range of the draw. *)
Definition well_shaped (config : Config) (p : Pipe.t) : Prop :=
  Pipe.gap_size p = pipe_gap config
  /\ spawn_margin config <= Pipe.gap_y p
       <= screen_height config - spawn_margin config.

(** The saves are strictly growing (the list has the latest first) and
    none is above the high score. *)
Definition store_sound (w : World) : Prop :=
  StronglySorted Z.gt (saves w)
  /\ Forall (fun v => v <= high_score (game w)) (saves w).


(** Case analysis on the string comparisons of [handle_input]. *)
Ltac split_keys :=
  repeat match goal with
         | |- context [String.eqb ?a ?b] => destruct (String.eqb_spec a b)
         | H : context [String.eqb ?a ?b] |- _ => destruct (String.eqb_spec a b)
         end.

(* ================================================================== *)
(** * Properties *)

(** ** Arithmetic of the gap band *)

(** Below [2^53] every integer is its own float. *)
Lemma round53_small (m : Z) : Z.abs m < 2 ^ 53 -> round53 m = m.
Proof.
  intros H. unfold round53.
  destruct (Z.ltb_spec (Z.abs m) (2 ^ 53)); [reflexivity | lia].
Qed.

(** The two bounds [_is_pipe_at] computes, where no float rounds: the
    exact half-integers [(2 gap_y -/+ gap_size) / 2] truncated toward
    zero. *)
Lemma gap_top_exact (pipe : Pipe.t) :
  Z.abs (Pipe.gap_y pipe) < 2 ^ 53 -> Z.abs (Pipe.gap_size pipe) < 2 ^ 53 ->
  Z.abs (2 * Pipe.gap_y pipe - Pipe.gap_size pipe) < 2 ^ 53 ->
  gap_top pipe = Z.quot (2 * Pipe.gap_y pipe - Pipe.gap_size pipe) 2.
Proof.
  intros Hy Hs Hd. unfold gap_top.
  rewrite (round53_small _ Hy), (round53_small _ Hs), (round53_small _ Hd).
  unfold int_of_float. cbn. f_equal. lia.
Qed.

Lemma gap_bottom_exact (pipe : Pipe.t) :
  Z.abs (Pipe.gap_y pipe) < 2 ^ 53 -> Z.abs (Pipe.gap_size pipe) < 2 ^ 53 ->
  Z.abs (2 * Pipe.gap_y pipe + Pipe.gap_size pipe) < 2 ^ 53 ->
  gap_bottom pipe = Z.quot (2 * Pipe.gap_y pipe + Pipe.gap_size pipe) 2.
Proof.
  intros Hy Hs Hd. unfold gap_bottom.
  rewrite (round53_small _ Hy), (round53_small _ Hs), (round53_small _ Hd).
  unfold int_of_float. cbn. f_equal. lia.
Qed.

(** Past [2^53] the floats round.  A pipe of centre [2^53 + 1] and gap
    size 2 has the two open rows [2^53 - 1] and [2^53], and a pipe of
    centre [2^59 + 2] and gap size [2^60] has its first open row at 0,
    where the exact half-integers would give three rows and row 2. *)
Example gap_bounds_round :
  gap_top (Pipe.mk 0 (2 ^ 53 + 1) 2 false) = 2 ^ 53 - 1
  /\ gap_bottom (Pipe.mk 0 (2 ^ 53 + 1) 2 false) = 2 ^ 53
  /\ gap_top (Pipe.mk 0 (2 ^ 59 + 2) (2 ^ 60) false) = 0.
Proof.
  vm_compute. repeat split.
Qed.

(** The floor of the half of a gap size that is not negative is its
    truncation toward zero. *)
Lemma half_floor_trunc (g : Z) : 0 <= g -> g / 2 = Z.quot g 2.
Proof.
  intros H. symmetry. apply Z.quot_div_nonneg; lia.
Qed.

Lemma band_low_le_high (pipe : Pipe.t) :
  0 <= Pipe.gap_size pipe -> band_low pipe <= band_high pipe.
Proof.
  intros Hsize. unfold band_low, band_high.
  assert (0 <= Pipe.gap_size pipe / 2) by (apply Z.div_pos; lia).
  lia.
Qed.

(** [_is_pipe_at] in logical form: a cell is blocked exactly when its
    column is in the span of the pipe and its row is off the rows
    [gap_top .. gap_bottom]. *)
Lemma is_pipe_at_true_iff (pipe : Pipe.t) (config : Config) (col row : Z) :
  _is_pipe_at pipe config col row = true <->
  in_span config pipe col /\ ~ (gap_top pipe <= row <= gap_bottom pipe).
Proof.
  unfold _is_pipe_at, in_span.
  destruct (col <? Pipe.x pipe) eqn:E1;
    destruct (col >=? Pipe.x pipe + pipe_width config) eqn:E2;
    destruct (gap_top pipe <=? row) eqn:E3;
    destruct (row <=? gap_bottom pipe) eqn:E4; cbn;
    split; intros H; try discriminate; try reflexivity; try lia.
Qed.

(** The obstacle test of the collision in logical form. *)
Lemma is_inside_obstacle_true_iff (b : Bird.t) (pipe : Pipe.t) (config : Config) :
  physics.is_inside_obstacle b pipe config = true <->
  in_span config pipe (Bird.x b)
  /\ ~ (band_low pipe <= physics.bird_row b <= band_high pipe).
Proof.
  unfold physics.is_inside_obstacle, in_span, band_low, band_high.
  rewrite andb_true_iff, andb_true_iff, orb_true_iff.
  rewrite Z.leb_le, !Z.ltb_lt, Z.gtb_gt. lia.
Qed.

(** ** Scenario B: the band of an obstacle with centre 10 and size 7 *)

(** C1.  For an obstacle with gap centre 10 and gap size 7 the band of
    rows that do not collide is 7 through 13 inclusive: a bird whose
    column is in the span of the obstacle is inside the obstacle exactly
    when its row is not in 7..13; at row 6 and at row 14 it collides;
    at row 7 and at row 13 it does not, on a field that holds the row
    and has no other obstacle. *)
Theorem scenario_B_band (pipe : Pipe.t) (config : Config) (b : Bird.t)
    (fieldHeight : Z) :
  Pipe.gap_y pipe = 10 -> Pipe.gap_size pipe = 7 ->
  in_span config pipe (Bird.x b) ->
  (band_low pipe = 7 /\ band_high pipe = 13)
  /\ (physics.is_inside_obstacle b pipe config = true
      <-> ~ (7 <= physics.bird_row b <= 13))
  /\ (physics.bird_row b = 6 \/ physics.bird_row b = 14 ->
      physics.check_collision config b [pipe] fieldHeight = true)
  /\ (physics.bird_row b = 7 \/ physics.bird_row b = 13 ->
      physics.bird_row b <= fieldHeight - 1 ->
      physics.check_collision config b [pipe] fieldHeight = false).
Proof.
  intros Hy Hs Hspan.
  assert (Hlow : band_low pipe = 7) by (unfold band_low; rewrite Hy, Hs; reflexivity).
  assert (Hhigh : band_high pipe = 13) by (unfold band_high; rewrite Hy, Hs; reflexivity).
  assert (Hin : physics.is_inside_obstacle b pipe config = true
                <-> ~ (7 <= physics.bird_row b <= 13)).
  { rewrite is_inside_obstacle_true_iff, Hlow, Hhigh. tauto. }
  split; [split; assumption|].
  split; [exact Hin|].
  split.
  - intros Hrow. unfold physics.check_collision. cbn [existsb].
    apply orb_true_iff. right. apply orb_true_iff. left.
    apply Hin. lia.
  - intros Hrow Hfield. unfold physics.check_collision. cbn [existsb].
    destruct (physics.is_inside_obstacle b pipe config) eqn:E.
    + pose proof (proj1 Hin eq_refl). lia.
    + destruct (Z.ltb_spec (physics.bird_row b) 0); [lia|].
      destruct (Z.gtb_spec (physics.bird_row b) (fieldHeight - 1)); [lia|].
      reflexivity.
Qed.

Lemma scenario_B_band_witness :
  let pipe := Pipe.mk 20 10 7 false in
  let b := Bird.mk 20 (6 # 1) 0 in
  in_span DEFAULT_CONFIG pipe (Bird.x b) /\
  physics.bird_row b = 6 /\
  physics.check_collision DEFAULT_CONFIG b [pipe] (screen_height DEFAULT_CONFIG) = true.
Proof.
  assert (Hspan : in_span DEFAULT_CONFIG (Pipe.mk 20 10 7 false) 20)
    by (unfold in_span; simpl; lia).
  split; [exact Hspan|].
  split; [reflexivity|].
  apply (scenario_B_band (Pipe.mk 20 10 7 false) DEFAULT_CONFIG
           (Bird.mk 20 (6 # 1) 0) (screen_height DEFAULT_CONFIG)
           eq_refl eq_refl Hspan).
  left. reflexivity.
Defined.

(** What the picture shows of the same obstacle: [_is_pipe_at] takes its
    bounds from the half-integers [10 - 3.5] and [10 + 3.5], so it
    leaves the cells of row 6 blank as well, and draws rows 5 and 14. *)
Example scenario_B_picture :
  let pipe := Pipe.mk 20 10 7 false in
  gap_top pipe = 6 /\ gap_bottom pipe = 13 /\
  _is_pipe_at pipe DEFAULT_CONFIG 20 5 = true /\
  _is_pipe_at pipe DEFAULT_CONFIG 20 6 = false /\
  _is_pipe_at pipe DEFAULT_CONFIG 20 13 = false /\
  _is_pipe_at pipe DEFAULT_CONFIG 20 14 = true.
Proof.
  vm_compute. repeat split.
Qed.

(** ** Collision *)

(** C2.  [check_collision] is true exactly when the row of the bird is
    below 0 or above [fieldHeight - 1], or some live obstacle has the
    column of the bird in [x, x + width) and the row of the bird outside
    the band [gapCenter - gapSize/2, gapCenter + gapSize/2]; a row equal
    to either edge of the band of an obstacle (of non-negative gap size)
    is not inside that obstacle; and for such an obstacle the half of
    the band is the half of the gap size truncated toward zero. *)
Theorem collision_iff_spec (config : Config) (b : Bird.t) (ps : list Pipe.t)
    (fieldHeight : Z) :
  (physics.check_collision config b ps fieldHeight = true
   <-> collision_spec config b ps fieldHeight)
  /\ (forall pipe, 0 <= Pipe.gap_size pipe ->
        physics.bird_row b = band_low pipe \/ physics.bird_row b = band_high pipe ->
        physics.is_inside_obstacle b pipe config = false)
  /\ (forall pipe, 0 <= Pipe.gap_size pipe ->
        band_low pipe = Pipe.gap_y pipe - Z.quot (Pipe.gap_size pipe) 2
        /\ band_high pipe = Pipe.gap_y pipe + Z.quot (Pipe.gap_size pipe) 2).
Proof.
  split; [|split].
  - unfold physics.check_collision, collision_spec.
    rewrite !orb_true_iff, existsb_exists, Z.ltb_lt, Z.gtb_gt.
    split.
    + intros [[H | H] | [pipe [Hin H]]]; [left; exact H | right; left; exact H |].
      right; right. exists pipe.
      rewrite is_inside_obstacle_true_iff in H.
      tauto.
    + intros [H | [H | [pipe [Hin H]]]]; [left; left; exact H | left; right; exact H |].
      right. exists pipe. split; [exact Hin|].
      rewrite is_inside_obstacle_true_iff. exact H.
  - intros pipe Hsize Hedge.
    pose proof (band_low_le_high pipe Hsize) as Hle.
    destruct (physics.is_inside_obstacle b pipe config) eqn:E; [|reflexivity].
    rewrite is_inside_obstacle_true_iff in E.
    destruct E as [_ Hout]. exfalso. apply Hout. lia.
  - intros pipe Hsize. unfold band_low, band_high.
    rewrite (half_floor_trunc _ Hsize). split; reflexivity.
Qed.

Lemma collision_iff_spec_witness :
  let pipe := Pipe.mk 20 10 7 false in
  let b := Bird.mk 20 (13 # 1) 0 in
  physics.bird_row b = band_high pipe /\
  physics.is_inside_obstacle b pipe DEFAULT_CONFIG = false.
Proof.
  split; [reflexivity|].
  apply (collision_iff_spec DEFAULT_CONFIG (Bird.mk 20 (13 # 1) 0) [] 20).
  - simpl; lia.
  - right; reflexivity.
Defined.

(** ** Frames outside Playing *)

Lemma update_game_idle (r : Z) (w : World) (config : Config) :
  status (game w) <> PLAYING ->
  update_game r w config = Ok w.
Proof.
  intros Hstatus. unfold update_game.
  destruct (status (game w)); [contradiction | reflexivity ..].
Qed.

(** C10.  When the status is not Playing (Dead, Prompted or Exiting),
    [update_game] returns at once with the world it was given: the bird
    (position and velocity), the pipes, the score, the high score, the
    status, the mode and the ready flag are what they were, and nothing
    is handed to [save_high_score]. *)
Theorem update_game_not_playing (r : Z) (w : World) (config : Config) :
  status (game w) <> PLAYING ->
  exists w',
    update_game r w config = Ok w'
    /\ bird (game w') = bird (game w)
    /\ pipes (game w') = pipes (game w)
    /\ score (game w') = score (game w)
    /\ high_score (game w') = high_score (game w)
    /\ status (game w') = status (game w)
    /\ mode (game w') = mode (game w)
    /\ claude_ready (game w') = claude_ready (game w)
    /\ saves w' = saves w
    /\ w' = w.
Proof.
  intros Hstatus. exists w.
  split; [apply update_game_idle; exact Hstatus|].
  repeat split.
Qed.

Lemma update_game_not_playing_witness :
  let w := mkWorld (mkGameState (Bird.mk 15 (10 # 1) (3 # 2))
                      [Pipe.mk 12 9 7 false; Pipe.mk 41 11 7 false]
                      3 8 PROMPTED AUTO_RESTART true) [8] in
  exists w', update_game 5 w DEFAULT_CONFIG = Ok w' /\ w' = w.
Proof.
  intros w.
  destruct (update_game_not_playing 5 w DEFAULT_CONFIG) as (w' & Hrun & H).
  - simpl. discriminate.
  - exists w'. split; [exact Hrun|]. apply H.
Defined.

(** ** The prompt *)

Lemma lower_y_not_quit (key : string) :
  lower key = "y"%string ->
  String.eqb (lower key) "q" || String.eqb key ctrl_c = false.
Proof.
  intros H. rewrite H. cbn.
  destruct (String.eqb key ctrl_c) eqn:E; [|reflexivity].
  apply String.eqb_eq in E. subst key. discriminate H.
Qed.

Lemma lower_n_not_quit (key : string) :
  lower key = "n"%string ->
  String.eqb (lower key) "q" || String.eqb key ctrl_c = false.
Proof.
  intros H. rewrite H. cbn.
  destruct (String.eqb key ctrl_c) eqn:E; [|reflexivity].
  apply String.eqb_eq in E. subst key. discriminate H.
Qed.

Lemma lower_letter_not_space (key letter : string) :
  lower key = letter -> letter <> " "%string -> String.eqb key " " = false.
Proof.
  intros H Hne. destruct (String.eqb key " ") eqn:E; [|reflexivity].
  apply String.eqb_eq in E. subst key. compute in H. congruence.
Qed.

(** C8.  From Prompted, a decline key ([n] or [N], any key whose lower
    case is [n]) sets the status to Playing and clears the ready flag,
    so that the next asserted readiness signal prompts again; a confirm
    key ([y] or [Y]) sets the status to Exiting.  Nothing else of the
    state changes. *)
Theorem prompted_decline_confirm (state : GameState) (config : Config) (key : string) :
  status state = PROMPTED ->
  (lower key = "n"%string ->
     handle_input state config (Some key)
     = mkGameState (bird state) (pipes state) (score state) (high_score state)
                   PLAYING (mode state) false
     /\ status (observe_signal (handle_input state config (Some key)) true)
        = PROMPTED)
  /\ (lower key = "y"%string ->
     handle_input state config (Some key)
     = mkGameState (bird state) (pipes state) (score state) (high_score state)
                   EXITING (mode state) (claude_ready state)).
Proof.
  intros Hst. split; intros Hkey; unfold handle_input.
  - rewrite (lower_n_not_quit key Hkey).
    rewrite (lower_letter_not_space key "n" Hkey) by discriminate.
    rewrite Hkey, Hst. split; reflexivity.
  - rewrite (lower_y_not_quit key Hkey).
    rewrite (lower_letter_not_space key "y" Hkey) by discriminate.
    rewrite Hkey, Hst. reflexivity.
Qed.

Lemma prompted_decline_confirm_witness :
  let state := mkGameState (Bird.mk 15 (10 # 1) 0) [Pipe.mk 30 9 7 false]
                 2 4 PROMPTED SINGLE_LIFE true in
  (status (handle_input state DEFAULT_CONFIG (Some "N"%string)) = PLAYING
   /\ claude_ready (handle_input state DEFAULT_CONFIG (Some "N"%string)) = false)
  /\ status (handle_input state DEFAULT_CONFIG (Some "y"%string)) = EXITING.
Proof.
  intros state.
  destruct (prompted_decline_confirm state DEFAULT_CONFIG "N" eq_refl) as [Hn _].
  destruct (prompted_decline_confirm state DEFAULT_CONFIG "y" eq_refl) as [_ Hy].
  destruct (Hn eq_refl) as [Hn' _].
  rewrite Hn', (Hy eq_refl). repeat split.
Defined.

Lemma lower_is_n (key : string) :
  lower key = "n"%string <-> key = "n"%string \/ key = "N"%string.
Proof.
  split.
  - destruct key as [|c [|c' rest]]; cbn; intros H; try discriminate.
    injection H as H.
    destruct c as [[] [] [] [] [] [] [] []]; compute in H;
      try discriminate; auto.
  - intros [-> | ->]; reflexivity.
Qed.

Lemma lower_is_y (key : string) :
  lower key = "y"%string <-> key = "y"%string \/ key = "Y"%string.
Proof.
  split.
  - destruct key as [|c [|c' rest]]; cbn; intros H; try discriminate.
    injection H as H.
    destruct c as [[] [] [] [] [] [] [] []]; compute in H;
      try discriminate; auto.
  - intros [-> | ->]; reflexivity.
Qed.

(** ** The readiness probe *)

Lemma str_eqb_eq (a b : ipc.str) : ipc.str_eqb a b = true <-> a = b.
Proof.
  unfold ipc.str_eqb. destruct (list_eq_dec N.eq_dec a b); split; intros H;
    congruence.
Qed.

(** What [check_signal_file] does, case by case on the environment. *)
Lemma check_signal_file_cases (env : ipc.Env) :
  ipc.check_signal_file env =
  match ipc.at_path env with
  | ipc.File true content =>
      match ipc.decode env content with
      | Some s => Ok (ipc.str_eqb (ipc.strip s) ipc.ready)
      | None => Raise UnicodeDecodeError
      end
  | _ => Ok false
  end.
Proof.
  unfold ipc.check_signal_file, ipc.exists_, ipc.read_text.
  destruct (ipc.at_path env) as [| | |[] content]; try reflexivity.
  cbn. destruct (ipc.decode env content); reflexivity.
Qed.

(** The answer is true exactly for a readable file whose decoded and
    stripped content is ["ready"]. *)
Lemma check_signal_file_true_iff (env : ipc.Env) :
  ipc.check_signal_file env = Ok true <->
  exists content s,
    ipc.at_path env = ipc.File true content
    /\ ipc.decode env content = Some s
    /\ ipc.strip s = ipc.ready.
Proof.
  rewrite check_signal_file_cases.
  destruct (ipc.at_path env) as [| | |[] content]; split;
    try discriminate;
    try (intros (c & s & Hn & _); discriminate Hn).
  - destruct (ipc.decode env content) as [s|] eqn:Hd; [|discriminate].
    intros H. injection H as H. apply str_eqb_eq in H.
    exists content, s. auto.
  - intros (c & s & Hn & Hd & Hs). injection Hn as <-.
    rewrite Hd. f_equal. apply str_eqb_eq. exact Hs.
Qed.

(** A missing file, a failing [stat], a directory, an unreadable file
    and decodable content other than ["ready"] all give [False]. *)
Lemma check_signal_file_not_ready (env : ipc.Env) :
  (forall content, ipc.at_path env <> ipc.File true content) \/
  (exists content s, ipc.at_path env = ipc.File true content
     /\ ipc.decode env content = Some s /\ ipc.strip s <> ipc.ready) ->
  ipc.check_signal_file env = Ok false.
Proof.
  rewrite check_signal_file_cases.
  intros [Hno | (content & s & Hn & Hd & Hs)].
  - destruct (ipc.at_path env) as [| | |[] content]; try reflexivity.
    exfalso. apply (Hno content). reflexivity.
  - rewrite Hn, Hd. f_equal.
    destruct (ipc.str_eqb (ipc.strip s) ipc.ready) eqn:E; [|reflexivity].
    apply str_eqb_eq in E. contradiction.
Qed.

(** C9 fails on content that is not text: a signal file holding the
    single byte 0xFF, read in a UTF-8 locale, makes [read_text] raise
    [UnicodeDecodeError], which [except (OSError, IOError)] does not
    catch; the call does not answer [False]. *)
Theorem check_signal_file_undecodable :
  ipc.check_signal_file (ipc.mkEnv (ipc.File true [Byte.xff]) ipc.utf8_decode)
  = Raise UnicodeDecodeError.
Proof. reflexivity. Qed.

(** In general, every content the codec rejects surfaces as an
    exception. *)
Lemma check_signal_file_raises_iff (env : ipc.Env) :
  (exists e, ipc.check_signal_file env = Raise e) <->
  exists content, ipc.at_path env = ipc.File true content
                  /\ ipc.decode env content = None.
Proof.
  rewrite check_signal_file_cases.
  destruct (ipc.at_path env) as [| | |[] content]; split;
    try (intros [e H]; discriminate H);
    try (intros (c & Hn & _); discriminate Hn).
  - destruct (ipc.decode env content) eqn:Hd; intros [e H]; [discriminate H|].
    exists content. auto.
  - intros (c & Hn & Hd). injection Hn as <-. rewrite Hd. eauto.
Qed.

(** ** The scoring loop *)

Lemma scoring_progress_refl (w : World) : scoring_progress w w.
Proof.
  unfold scoring_progress, record_progress. repeat apply conj; try reflexivity; try lia.
  - intros _. split; reflexivity.
  - exists []. split; reflexivity.
Qed.

Lemma scoring_progress_trans (w0 w1 w2 : World) :
  scoring_progress w0 w1 -> scoring_progress w1 w2 -> scoring_progress w0 w2.
Proof.
  unfold scoring_progress, record_progress.
  intros (Hb1 & Hp1 & Hst1 & Hm1 & Hc1 & Hs1 & Hh1 & Hmax1 & Hsame1 & Hrec1 & news1 & Hn1 & Hhd1)
         (Hb2 & Hp2 & Hst2 & Hm2 & Hc2 & Hs2 & Hh2 & Hmax2 & Hsame2 & Hrec2 & news2 & Hn2 & Hhd2).
  repeat apply conj; try congruence; try lia.
  - intros E.
    assert (score (game w1) = score (game w0)) as E1 by lia.
    assert (score (game w2) = score (game w1)) as E2 by lia.
    destruct (Hsame1 E1), (Hsame2 E2). split; congruence.
  - exists (news2 ++ news1). split.
    + rewrite Hn2, Hn1. apply app_assoc.
    + destruct news2 as [|v2 news2]; cbn.
      * destruct news1 as [|v1 news1]; [lia|].
        destruct Hhd1. split; lia.
      * destruct Hhd2. split; lia.
Qed.

Lemma pass_events_cons (p p' : Pipe.t) (ps ps' : list Pipe.t) :
  pass_events (p :: ps) (p' :: ps')
  = (if negb (Pipe.passed p) && Pipe.passed p' then 1 else 0) + pass_events ps ps'.
Proof.
  unfold pass_events. cbn [combine filter fst snd].
  destruct (negb (Pipe.passed p) && Pipe.passed p'); cbn [List.length]; lia.
Qed.

Lemma pass_events_nonneg (ps ps' : list Pipe.t) : 0 <= pass_events ps ps'.
Proof. unfold pass_events. lia. Qed.

Lemma score_pipe_progress (config : Config) (pipe : Pipe.t) (w : World) :
  pipe_progress pipe (fst (score_pipe config pipe w))
  /\ scoring_progress w (snd (score_pipe config pipe w))
  /\ score (game (snd (score_pipe config pipe w)))
     = score (game w)
       + (if negb (Pipe.passed pipe) && Pipe.passed (fst (score_pipe config pipe w))
          then 1 else 0).
Proof.
  unfold score_pipe.
  destruct (Pipe.passed pipe) eqn:Hp; cbn [negb andb].
  - cbn [fst snd]. split; [|split].
    + split; [reflexivity | intros _; exact Hp].
    + apply scoring_progress_refl.
    + cbn. lia.
  - destruct (physics.check_pipe_passed config (bird (game w)) pipe).
    + cbn [set_score score high_score].
      destruct (score (game w) + 1 >? high_score (game w)) eqn:Hrec;
        cbn [fst snd]; (split; [|split]).
      * split; [reflexivity | intros _; reflexivity].
      * apply Z.gtb_gt in Hrec. unfold scoring_progress, record_progress. cbn.
        repeat apply conj; try reflexivity; try lia.
        exists [score (game w) + 1]. cbn. repeat split; lia.
      * cbn. lia.
      * split; [reflexivity | intros _; reflexivity].
      * assert (score (game w) + 1 <= high_score (game w)) as Hle.
        { destruct (Z.gtb_spec (score (game w) + 1) (high_score (game w)));
            [discriminate | lia]. }
        unfold scoring_progress, record_progress. cbn.
        repeat apply conj; try reflexivity; try lia.
        exists []. split; reflexivity.
      * cbn. lia.
    + cbn [fst snd]. rewrite Hp. split; [|split].
      * split; [reflexivity | intros H; congruence].
      * apply scoring_progress_refl.
      * cbn. lia.
Qed.

Lemma score_pipes_progress (config : Config) (ps : list Pipe.t) :
  forall (w : World) (ps' : list Pipe.t) (w' : World),
    score_pipes config ps w = (ps', w') ->
    Forall2 pipe_progress ps ps'
    /\ scoring_progress w w'
    /\ score (game w') = score (game w) + pass_events ps ps'.
Proof.
  induction ps as [|pipe rest IH]; intros w ps' w' Hloop; cbn in Hloop.
  - injection Hloop as <- <-. split; [constructor | split].
    + apply scoring_progress_refl.
    + unfold pass_events. cbn. lia.
  - pose proof (score_pipe_progress config pipe w) as (Hpipe & Hw & Hscore).
    destruct (score_pipe config pipe w) as [pipe1 w1]. cbn [fst snd] in *.
    destruct (score_pipes config rest w1) as [rest1 w2] eqn:Hrest.
    injection Hloop as <- <-.
    destruct (IH w1 rest1 w2 Hrest) as (Hall & Hw2 & Hscore2).
    split; [constructor; assumption | split].
    + eapply scoring_progress_trans; eassumption.
    + rewrite pass_events_cons. lia.
Qed.

(** ** The shape of a Playing frame *)

Lemma spawn_pipe_inv (r : Z) (state : GameState) (config : Config) (state' : GameState) :
  spawn_pipe r state config = Ok state' ->
  exists gap_y,
    spawn_margin config <= gap_y <= screen_height config - spawn_margin config
    /\ state' = set_pipes state
                  (pipes state ++ [Pipe.new (screen_width config) gap_y (pipe_gap config)]).
Proof.
  unfold spawn_pipe, randint.
  destruct (screen_height config - spawn_margin config <? spawn_margin config) eqn:E;
    cbn; [discriminate|].
  intros H. injection H as <-.
  apply Z.ltb_ge in E.
  eexists. split; [|reflexivity].
  pose proof (Z.mod_pos_bound r
                (screen_height config - spawn_margin config - spawn_margin config + 1)
                ltac:(lia)).
  lia.
Qed.

Lemma spawn_pipe_total (r : Z) (state : GameState) (config : Config) :
  spawn_range_ok config -> exists state', spawn_pipe r state config = Ok state'.
Proof.
  unfold spawn_range_ok, spawn_pipe, randint. intros Hok.
  destruct (screen_height config - spawn_margin config <? spawn_margin config) eqn:E.
  - apply Z.ltb_lt in E. lia.
  - cbn. eauto.
Qed.

Lemma update_game_playing_inv (r : Z) (w : World) (config : Config) (w' : World) :
  status (game w) = PLAYING ->
  update_game r w config = Ok w' ->
  let kept := advance_and_retire config (pipes (game w)) in
  let moved := physics.apply_gravity (bird (game w)) config in
  exists spawned,
    (if spawn_due config kept
     then exists gap_y,
            spawn_margin config <= gap_y <= screen_height config - spawn_margin config
            /\ spawned = [Pipe.new (screen_width config) gap_y (pipe_gap config)]
     else spawned = [])
    /\ Forall2 pipe_progress (kept ++ spawned) (pipes (game w'))
    /\ score (game w') = score (game w) + pass_events (kept ++ spawned) (pipes (game w'))
    /\ record_progress w w'
    /\ bird (game w') = Bird.mk (Bird.x (bird (game w))) (Bird.y moved) (Bird.velocity moved)
    /\ mode (game w') = mode (game w)
    /\ claude_ready (game w') = claude_ready (game w)
    /\ status (game w')
       = if physics.check_collision config (bird (game w')) (pipes (game w'))
              (screen_height config)
         then DEAD else PLAYING.
Proof.
  intros Hst Hrun kept moved. unfold update_game in Hrun.
  rewrite Hst in Hrun. cbn [GameStatus_eqb negb] in Hrun.
  cbn [set_bird set_pipes pipes] in Hrun. fold kept in Hrun. fold moved in Hrun.
  set (st0 := set_pipes (set_bird (game w) _) kept) in Hrun.
  assert (exists spawned st1,
             (if spawn_due config kept then spawn_pipe r st0 config else Ok st0) = Ok st1
             /\ st1 = set_pipes st0 (kept ++ spawned)
             /\ (if spawn_due config kept
                 then exists gap_y,
                   spawn_margin config <= gap_y <= screen_height config - spawn_margin config
                   /\ spawned = [Pipe.new (screen_width config) gap_y (pipe_gap config)]
                 else spawned = [])) as (spawned & st1 & Hsp & Hst1 & Hspawned).
  { destruct (spawn_due config kept).
    - destruct (spawn_pipe r st0 config) as [st1|e] eqn:E; [|discriminate Hrun].
      destruct (spawn_pipe_inv _ _ _ _ E) as (gap_y & Hrange & ->).
      eexists _, _. split; [reflexivity|]. split; [reflexivity|]. eauto.
    - exists [], st0. split; [reflexivity|]. split; [|reflexivity].
      unfold set_pipes, st0. cbn. rewrite app_nil_r. reflexivity. }
  rewrite Hsp in Hrun. cbn [bind] in Hrun.
  destruct (score_pipes config (pipes st1) (mkWorld st1 (saves w))) as [ps' w1] eqn:Hloop.
  apply score_pipes_progress in Hloop.
  destruct Hloop as (Hall & (Hb & _ & Hs & Hm & Hc & Hrec) & Hscore).
  injection Hrun as <-.
  subst st1. cbn [game saves].
  remember (physics.check_collision config (bird (game w1)) ps' (screen_height config))
    as c eqn:Ecol.
  exists spawned. split; [exact Hspawned|].
  unfold record_progress in *. subst st0.
  cbn [game saves set_pipes set_bird pipes score high_score bird status mode
       claude_ready] in *.
  destruct Hrec as (? & ? & ? & ? & ? & ?).
  destruct c;
    cbn [set_status set_pipes pipes score high_score bird status mode claude_ready];
    rewrite <- Ecol;
    (repeat apply conj; try assumption; try reflexivity).
  rewrite Hs. exact Hst.
Qed.

Lemma update_game_total (r : Z) (w : World) (config : Config) :
  spawn_due config (advance_and_retire config (pipes (game w))) = false
  \/ spawn_range_ok config ->
  exists w', update_game r w config = Ok w'.
Proof.
  intros Hok. unfold update_game.
  destruct (negb (GameStatus_eqb (status (game w)) PLAYING)); [eauto|].
  cbn [set_bird set_pipes pipes].
  set (st0 := set_pipes (set_bird (game w) _) _).
  assert (exists st1,
             (if spawn_due config (advance_and_retire config (pipes (game w)))
              then spawn_pipe r st0 config else Ok st0) = Ok st1) as [st1 Hsp].
  { destruct (spawn_due config (advance_and_retire config (pipes (game w)))).
    - destruct Hok as [Hno | Hrange]; [discriminate Hno|].
      apply spawn_pipe_total. exact Hrange.
    - eauto. }
  rewrite Hsp. cbn [bind].
  destruct (score_pipes config (pipes st1) (mkWorld st1 (saves w))) as [ps' w1].
  eauto.
Qed.

(** ** The obstacle stream *)

Lemma advance_and_retire_spec (config : Config) (ps : list Pipe.t) :
  advance_and_retire config ps
  = retire_spec config (map (fun p => Pipe.update p config) ps).
Proof.
  unfold advance_and_retire, retire_spec. apply filter_ext.
  intros p. destruct (Z.gtb_spec (Pipe.x p) (- pipe_width config));
    destruct (Z.leb_spec (Pipe.x p) (- pipe_width config)); cbn;
    try reflexivity; lia.
Qed.

Lemma spawn_due_iff (config : Config) (ps : list Pipe.t) :
  spawn_due config ps = true <-> spawn_trigger_spec config ps.
Proof.
  unfold spawn_due, spawn_trigger_spec.
  destruct ps as [|p0 rest].
  - split; [left; reflexivity | reflexivity].
  - destruct (exists_last (l := p0 :: rest) ltac:(discriminate)) as (older & newest & E).
    assert (last (p0 :: rest) p0 = newest) as Hlast
      by (rewrite E; apply last_last).
    rewrite Hlast, Z.ltb_lt. split.
    + intros H. right. exists older, newest. split; assumption.
    + intros [H | (older' & newest' & E' & H)]; [discriminate H|].
      rewrite E in E'. apply app_inj_tail in E'. destruct E' as [_ ->]. exact H.
Qed.

Lemma pipe_progress_geometry (ps ps' : list Pipe.t) :
  Forall2 pipe_progress ps ps' -> map geometry ps' = map geometry ps.
Proof.
  induction 1 as [|p p' ps ps' [Hg _] _ IH]; cbn; [reflexivity|].
  rewrite Hg, IH. reflexivity.
Qed.

(** C4.  In a Playing frame every obstacle first advances by
    [pipe_speed]; exactly the advanced obstacles with [x <= -width] are
    removed; then one new obstacle is appended if and only if none is
    left or the last (most recently spawned) one has
    [x < fieldWidth - spacing].  So at most one obstacle spawns per
    frame, and a spawned obstacle stands more than [spacing] columns to
    the right of the one before it.  The frame completes whenever no
    spawn is due or the range of gap centres is not empty. *)
Theorem playing_frame_stream (r : Z) (w : World) (config : Config) :
  status (game w) = PLAYING ->
  let advanced := map (fun p => Pipe.update p config) (pipes (game w)) in
  let kept := retire_spec config advanced in
  (forall w', update_game r w config = Ok w' ->
     exists spawned,
       map geometry (pipes (game w')) = map geometry (kept ++ spawned)
       /\ (List.length spawned <= 1)%nat
       /\ (spawn_trigger_spec config kept ->
             exists gap_y,
               spawned = [Pipe.new (screen_width config) gap_y (pipe_gap config)])
       /\ (~ spawn_trigger_spec config kept -> spawned = [])
       /\ (forall older newest fresh,
             kept = older ++ [newest] -> spawned = [fresh] ->
             pipe_spacing config < Pipe.x fresh - Pipe.x newest))
  /\ (~ spawn_trigger_spec config kept \/ spawn_range_ok config ->
        exists w', update_game r w config = Ok w').
Proof.
  intros Hst advanced kept.
  assert (Hkept : advance_and_retire config (pipes (game w)) = kept)
    by apply advance_and_retire_spec.
  split.
  - intros w' Hrun.
    destruct (update_game_playing_inv r w config w' Hst Hrun)
      as (spawned & Hsp & Hall & _).
    rewrite Hkept in Hsp, Hall.
    exists spawned. split; [apply pipe_progress_geometry; exact Hall|].
    destruct (spawn_due config kept) eqn:Hdue.
    + destruct Hsp as (gap_y & Hrange & ->).
      apply spawn_due_iff in Hdue.
      split; [cbn; lia|]. split; [eauto|]. split; [contradiction|].
      intros older newest fresh Ekept Efresh. injection Efresh as <-.
      destruct Hdue as [Hempty | (older' & newest' & E' & Hx)].
      * rewrite Hempty in Ekept. destruct older; discriminate Ekept.
      * rewrite E' in Ekept. apply app_inj_tail in Ekept.
        destruct Ekept as [_ ->]. unfold Pipe.new. cbn [Pipe.x]. lia.
    + subst spawned.
      assert (~ spawn_trigger_spec config kept) as Hno.
      { intros H. apply spawn_due_iff in H. congruence. }
      split; [cbn; lia|]. split; [contradiction|]. split; [reflexivity|].
      intros older newest fresh _ H. discriminate H.
  - intros Hok. apply update_game_total. rewrite Hkept.
    destruct Hok as [Hno | Hrange]; [left | right; exact Hrange].
    destruct (spawn_due config kept) eqn:Hdue; [|reflexivity].
    exfalso. apply Hno, spawn_due_iff. exact Hdue.
Qed.

Lemma playing_frame_stream_witness :
  let w := mkWorld (mkGameState (Bird.mk 15 (10 # 1) 0)
                      [Pipe.mk (-3) 8 7 true; Pipe.mk 35 10 7 false]
                      1 1 PLAYING AUTO_RESTART false) [] in
  status (game w) = PLAYING
  /\ exists w', update_game 3 w DEFAULT_CONFIG = Ok w'.
Proof.
  intros w. split; [reflexivity|].
  apply (playing_frame_stream 3 w DEFAULT_CONFIG eq_refl).
  right. unfold spawn_range_ok. vm_compute. discriminate.
Defined.

(** The frame of the witness, evaluated: the pipe at -3 moves to -4 and
    is retired, the pipe at 35 moves to 34 < 60 - 25, and one pipe is
    appended at 60. *)
Example playing_frame_stream_run :
  let w := mkWorld (mkGameState (Bird.mk 15 (10 # 1) 0)
                      [Pipe.mk (-3) 8 7 true; Pipe.mk 35 10 7 false]
                      1 1 PLAYING AUTO_RESTART false) [] in
  option_map (fun w' => map geometry (pipes (game w')))
    (match update_game 3 w DEFAULT_CONFIG with Ok w' => Some w' | Raise _ => None end)
  = Some [(34, 10, 7); (60, 8, 7)].
Proof. reflexivity. Qed.

(** ** The order of the live obstacles *)

Lemma increasing_x_same_x (ps ps' : list Pipe.t) :
  Forall2 (fun p p' => Pipe.x p' = Pipe.x p) ps ps' ->
  increasing_x ps -> increasing_x ps'.
Proof.
  unfold increasing_x.
  induction 1 as [|p p' ps ps' Hx Hrest IH]; intros Hsorted; [constructor|].
  inversion Hsorted as [|? ? Htail Hhead]; subst.
  constructor; [apply IH; exact Htail|].
  clear IH Hsorted Htail.
  induction Hrest as [|q q' qs qs' Hq _ IHq]; [constructor|].
  inversion Hhead; subst. constructor; [lia | apply IHq; assumption].
Qed.

Lemma pipe_progress_same_x (ps ps' : list Pipe.t) :
  Forall2 pipe_progress ps ps' ->
  Forall2 (fun p p' => Pipe.x p' = Pipe.x p) ps ps'.
Proof.
  induction 1 as [|p p' ps ps' [Hg _] _ IH]; constructor; [|exact IH].
  unfold geometry in Hg. congruence.
Qed.

Lemma increasing_x_update (config : Config) (ps : list Pipe.t) :
  increasing_x ps -> increasing_x (map (fun p => Pipe.update p config) ps).
Proof.
  unfold increasing_x.
  induction 1 as [|p ps _ IH Hhead]; cbn; constructor; [exact IH|].
  rewrite Forall_map. eapply Forall_impl; [|exact Hhead].
  intros q Hq. unfold Pipe.update. cbn [Pipe.x]. cbn beta in Hq. lia.
Qed.

Lemma increasing_x_filter (f : Pipe.t -> bool) (ps : list Pipe.t) :
  increasing_x ps -> increasing_x (filter f ps).
Proof.
  unfold increasing_x.
  induction 1 as [|p ps _ IH Hhead]; cbn; [constructor|].
  destruct (f p); [|exact IH].
  constructor; [exact IH|].
  rewrite Forall_forall in *. intros q Hq. apply Hhead.
  apply filter_In in Hq. tauto.
Qed.

Lemma increasing_x_append (ps : list Pipe.t) (fresh : Pipe.t) :
  increasing_x ps ->
  (forall old, In old ps -> Pipe.x old < Pipe.x fresh) ->
  increasing_x (ps ++ [fresh]).
Proof.
  unfold increasing_x. intros Hsorted Hlt.
  induction Hsorted as [|p ps _ IH Hhead]; cbn.
  - repeat constructor.
  - constructor.
    + apply IH. intros old Hold. apply Hlt. right. exact Hold.
    + rewrite Forall_app. split; [exact Hhead|].
      repeat constructor. apply Hlt. left. reflexivity.
Qed.

(** C3, as the code has it.  When the spacing is not negative, every
    frame keeps the live obstacles sorted by increasing [x] from the
    first to the last: the survivors of the frame keep their order
    (the sequence is never sorted again), and a newly spawned obstacle
    is appended after all of them, to the right of each. *)
Theorem stream_stays_increasing (r : Z) (w : World) (config : Config) (w' : World) :
  0 <= pipe_spacing config ->
  increasing_x (pipes (game w)) ->
  update_game r w config = Ok w' ->
  increasing_x (pipes (game w'))
  /\ exists spawned,
       let survivors :=
         match status (game w) with
         | PLAYING => retire_spec config
                        (map (fun p => Pipe.update p config) (pipes (game w)))
         | _ => pipes (game w)
         end in
       map geometry (pipes (game w')) = map geometry (survivors ++ spawned)
       /\ (forall old fresh, In old survivors -> In fresh spawned ->
             Pipe.x old < Pipe.x fresh).
Proof.
  intros Hspacing Hsorted Hrun.
  destruct (status (game w)) eqn:Hst;
    try (rewrite update_game_idle in Hrun by congruence;
         injection Hrun as <-;
         split; [exact Hsorted|];
         exists []; cbn; rewrite app_nil_r; split;
         [reflexivity | intros ? ? _ []]).
  destruct (update_game_playing_inv r w config w' Hst Hrun)
    as (spawned & Hsp & Hall & _).
  rewrite advance_and_retire_spec in Hsp, Hall.
  set (kept := retire_spec config
                 (map (fun p => Pipe.update p config) (pipes (game w)))) in *.
  assert (Hkept : increasing_x kept).
  { apply increasing_x_filter, increasing_x_update, Hsorted. }
  assert (Hfresh : forall old fresh, In old kept -> In fresh spawned ->
                     Pipe.x old < Pipe.x fresh).
  { intros old fresh Hold Hnew.
    destruct (spawn_due config kept) eqn:Hdue; [|subst spawned; destruct Hnew].
    destruct Hsp as (gap_y & _ & ->). destruct Hnew as [<- | []].
    apply spawn_due_iff in Hdue.
    destruct Hdue as [Hempty | (older & newest & E & Hx)].
    - rewrite Hempty in Hold. destruct Hold.
    - cbn [Pipe.new Pipe.x].
      assert (Pipe.x old <= Pipe.x newest); [|lia].
      rewrite E in Hold, Hkept. apply in_app_or in Hold.
      destruct Hold as [Hold | [<- | []]]; [|lia].
      unfold increasing_x in Hkept.
      clear - Hold Hkept. induction older as [|p older IH]; [destruct Hold|].
      cbn in Hkept. inversion Hkept as [|? ? Htail Hhead]; subst.
      destruct Hold as [<- | Hold]; [|apply IH; assumption].
      rewrite Forall_app in Hhead. destruct Hhead as [_ Hn].
      inversion Hn; subst. lia. }
  split.
  - apply (increasing_x_same_x (kept ++ spawned));
      [apply pipe_progress_same_x; exact Hall|].
    destruct (spawn_due config kept) eqn:Hdue;
      [|subst spawned; rewrite app_nil_r; exact Hkept].
    destruct Hsp as (gap_y & _ & Hs).
    subst spawned. apply increasing_x_append; [exact Hkept|].
    intros old Hold. apply (Hfresh old); [exact Hold | left; reflexivity].
  - exists spawned. split; [apply pipe_progress_geometry; exact Hall | exact Hfresh].
Qed.

Lemma stream_stays_increasing_witness :
  let w := mkWorld (mkGameState (Bird.mk 15 (10 # 1) 0)
                      [Pipe.mk 10 8 7 true; Pipe.mk 35 10 7 false]
                      1 1 PLAYING AUTO_RESTART false) [] in
  exists w', update_game 0 w DEFAULT_CONFIG = Ok w'
             /\ map Pipe.x (pipes (game w')) = [9; 34; 60]
             /\ increasing_x (pipes (game w')).
Proof.
  intros w. eexists. split; [vm_compute; reflexivity|].
  split; [reflexivity|].
  apply (stream_stays_increasing 0 w DEFAULT_CONFIG _).
  - simpl. lia.
  - unfold increasing_x. simpl. repeat constructor.
  - vm_compute. reflexivity.
Defined.

(** C3 as the specification states it fails: the pipes are appended
    on the right, so in spawn order [x] increases.  A single pipe at 35
    advances to 34 < 60 - 25, a new pipe is appended at 60, and the
    sequence 34, 60 is not sorted by decreasing [x]. *)
Lemma stream_not_decreasing :
  let w := mkWorld (mkGameState (Bird.mk 15 (10 # 1) 0) [Pipe.mk 35 10 7 false]
                      0 0 PLAYING AUTO_RESTART false) [] in
  decreasing_x (pipes (game w))
  /\ exists w', update_game 0 w DEFAULT_CONFIG = Ok w'
                /\ map Pipe.x (pipes (game w')) = [34; 60]
                /\ ~ decreasing_x (pipes (game w')).
Proof.
  split.
  - repeat constructor.
  - eexists. split; [reflexivity|]. split; [reflexivity|].
    intros H. inversion H as [|? ? _ Hhead]; subst.
    inversion Hhead as [|? ? Hlt _]; subst.
    cbn in Hlt. lia.
Qed.

(** ** Spawning *)

(** Where no float rounds, the rows [_is_pipe_at] leaves open for a pipe
    of the draw range are on the screen, between row 1 and row
    [screen_height - 2]. *)
Lemma spawn_band_on_screen (config : Config) (gap_y : Z) :
  0 <= pipe_gap config ->
  screen_height config <= 2 ^ 51 ->
  spawn_margin config <= gap_y <= screen_height config - spawn_margin config ->
  let pipe := Pipe.new (screen_width config) gap_y (pipe_gap config) in
  1 <= gap_top pipe /\ gap_top pipe <= gap_bottom pipe
  /\ gap_bottom pipe <= screen_height config - 2.
Proof.
  intros Hgap Hheight Hrange pipe.
  assert (Hpow : 2 ^ 53 = 4 * 2 ^ 51) by reflexivity.
  assert (Hhalf : pipe_gap config <= 2 * gap_y - 3).
  { unfold spawn_margin in Hrange. Z.to_euclidean_division_equations. lia. }
  assert (Hup : 2 * gap_y + pipe_gap config <= 2 * screen_height config - 3).
  { unfold spawn_margin in Hrange. Z.to_euclidean_division_equations. lia. }
  rewrite gap_top_exact, gap_bottom_exact;
    unfold pipe, Pipe.new; cbn [Pipe.gap_y Pipe.gap_size]; try lia.
  repeat apply conj; Z.to_euclidean_division_equations; lia.
Qed.







(** The two ends of the range under the default configuration: the
    centres 5 and 15 are drawn by the residues 0 and 10, and their bands
    are the rows 2 .. 8 and 12 .. 18 of the 20 rows of the field. *)
Example spawned_band_at_the_ends :
  let state := mkGameState (Bird.mk 15 (10 # 1) 0) [] 0 0 PLAYING AUTO_RESTART false in
  let high := Pipe.new 60 5 7 in
  let low := Pipe.new 60 15 7 in
  spawn_choices DEFAULT_CONFIG = 11
  /\ spawn_pipe 0 state DEFAULT_CONFIG = Ok (set_pipes state [high])
  /\ spawn_pipe 10 state DEFAULT_CONFIG = Ok (set_pipes state [low])
  /\ band_low high = 2 /\ band_high high = 8
  /\ band_low low = 12 /\ band_high low = 18
  /\ screen_height DEFAULT_CONFIG = 20.
Proof.
  vm_compute. repeat split.
Qed.

(** ** Passing and scoring *)






(** A frame in which the bird has cleared the first of two pipes: the
    flag of the first is set and the score goes from 0 to 1; in the
    next frame the flag is still set and the score is still 1. *)
Example passed_once_scored_once_run :
  let w := mkWorld (mkGameState (Bird.mk 15 (10 # 1) ((-2) # 1))
                      [Pipe.mk 12 10 7 false; Pipe.mk 40 9 7 false]
                      0 0 PLAYING AUTO_RESTART false) [] in
  match run DEFAULT_CONFIG [Frame 0] w, run DEFAULT_CONFIG [Frame 0; Frame 0] w with
  | Ok w1, Ok w2 =>
      map Pipe.passed (pipes (game w1)) = [true; false] /\ score (game w1) = 1
      /\ map Pipe.passed (pipes (game w2)) = [true; false] /\ score (game w2) = 1
      /\ status (game w2) = PLAYING /\ saves w2 = [1]
  | _, _ => False
  end.
Proof. vm_compute. repeat split. Qed.


(** ** The high score and its store *)

Lemma store_progress_refl (w : World) : store_progress w w.
Proof.
  split; [lia|]. exists []. split; reflexivity.
Qed.

Lemma store_progress_trans (w0 w1 w2 : World) :
  store_progress w0 w1 -> store_progress w1 w2 -> store_progress w0 w2.
Proof.
  intros (Hh1 & news1 & Hn1 & Hhd1) (Hh2 & news2 & Hn2 & Hhd2).
  split; [lia|].
  exists (news2 ++ news1). split.
  - rewrite Hn2, Hn1. apply app_assoc.
  - destruct news2 as [|v2 news2]; cbn.
    + destruct news1 as [|v1 news1]; [lia|].
      destruct Hhd1. split; lia.
    + destruct Hhd2. split; lia.
Qed.

Lemma record_progress_store (w0 w1 : World) :
  record_progress w0 w1 -> store_progress w0 w1.
Proof.
  intros (_ & Hh & _ & _ & _ & Hnews). split; assumption.
Qed.

Lemma store_progress_same (w0 w1 : World) :
  high_score (game w1) = high_score (game w0) -> saves w1 = saves w0 ->
  store_progress w0 w1.
Proof.
  intros Hh Hs. split; [lia|]. exists []. split; assumption.
Qed.

Lemma handle_input_high_score (state : GameState) (config : Config) (key : option string) :
  high_score (handle_input state config key) = high_score state.
Proof.
  unfold handle_input. destruct key as [key|]; [|reflexivity].
  repeat match goal with
         | |- context [if ?c then _ else _] => destruct c
         end; reflexivity.
Qed.

Lemma observe_signal_high_score (state : GameState) (ready : bool) :
  high_score (observe_signal state ready) = high_score state.
Proof.
  unfold observe_signal.
  repeat match goal with
         | |- context [if ?c then _ else _] => destruct c
         end; reflexivity.
Qed.

Lemma update_game_store_progress (r : Z) (w : World) (config : Config) (w' : World) :
  update_game r w config = Ok w' -> store_progress w w'.
Proof.
  intros Hrun.
  destruct (status (game w)) eqn:Hst;
    try (rewrite update_game_idle in Hrun by congruence;
         injection Hrun as <-; apply store_progress_refl).
  destruct (update_game_playing_inv r w config w' Hst Hrun)
    as (spawned & _ & _ & _ & Hrec & _).
  apply record_progress_store. exact Hrec.
Qed.

Lemma perform_store_progress (config : Config) (a : action) (w w' : World) :
  perform config a w = Ok w' -> store_progress w w'.
Proof.
  destruct a as [key | ready | r | b0]; cbn [perform]; intros H.
  - injection H as <-. apply store_progress_same; [|reflexivity].
    apply handle_input_high_score.
  - injection H as <-. apply store_progress_same; [|reflexivity].
    apply observe_signal_high_score.
  - eapply update_game_store_progress. exact H.
  - injection H as <-. apply store_progress_same; reflexivity.
Qed.

Lemma run_store_progress (config : Config) (acts : list action) :
  forall w w', run config acts w = Ok w' -> store_progress w w'.
Proof.
  induction acts as [|a rest IH]; intros w w' H; cbn [run] in H.
  - injection H as <-. apply store_progress_refl.
  - destruct (perform config a w) as [w1|e] eqn:E; [|discriminate H].
    cbn [bind] in H.
    eapply store_progress_trans; [eapply perform_store_progress; exact E|].
    apply IH. exact H.
Qed.

Lemma run_total (config : Config) (acts : list action) :
  spawn_range_ok config -> forall w, exists w', run config acts w = Ok w'.
Proof.
  intros Hok. induction acts as [|a rest IH]; intros w; cbn [run].
  - eauto.
  - assert (exists w1, perform config a w = Ok w1) as [w1 E].
    { destruct a; cbn [perform]; eauto.
      apply update_game_total. right. exact Hok. }
    rewrite E. cbn [bind]. apply IH.
Qed.

(** C7.  In a frame in which a pass event raised the score above the
    high score the frame started with, the high score is the new score
    when the frame ends and that value is the one saved last: the save
    happens inside [update_game].  Over any sequence of keys, signals,
    frames and resets the high score never decreases; whenever it grew,
    the value saved last is the high score, and while it did not grow
    nothing was saved.  With a non-empty range of gap centres every
    such sequence runs to its end. *)
Theorem high_score_monotone_and_saved (config : Config) :
  (forall r w w',
     update_game r w config = Ok w' ->
     score (game w) < score (game w') ->
     high_score (game w) < score (game w') ->
     high_score (game w') = score (game w')
     /\ forall initial, persisted initial w' = high_score (game w'))
  /\ (forall acts w w',
        run config acts w = Ok w' ->
        high_score (game w) <= high_score (game w')
        /\ (high_score (game w) < high_score (game w') ->
              forall initial, persisted initial w' = high_score (game w'))
        /\ (high_score (game w') = high_score (game w) -> saves w' = saves w))
  /\ (spawn_range_ok config ->
        forall acts w, exists w', run config acts w = Ok w').
Proof.
  split; [|split].
  - intros r w w' Hrun Hscore Hhigh.
    destruct (status (game w)) eqn:Hst;
      try (rewrite update_game_idle in Hrun by congruence;
           injection Hrun as <-; lia).
    destruct (update_game_playing_inv r w config w' Hst Hrun)
      as (spawned & _ & _ & _ & Hrec & _).
    destruct Hrec as (_ & _ & _ & _ & Hnew & news & Hn & Hhd).
    pose proof (Hnew Hscore Hhigh) as Hrecord.
    split; [exact Hrecord|].
    intros initial. unfold persisted. rewrite Hn.
    destruct news as [|v news]; [lia|].
    destruct Hhd as [-> _]. reflexivity.
  - intros acts w w' Hrun.
    destruct (run_store_progress config acts w w' Hrun) as (Hh & news & Hn & Hhd).
    split; [exact Hh|]. split.
    + intros Hgrew initial. unfold persisted. rewrite Hn.
      destruct news as [|v news]; [lia|].
      destruct Hhd as [-> _]. reflexivity.
    + intros Hsame. rewrite Hn.
      destruct news as [|v news]; [reflexivity|].
      destruct Hhd as [_ Hlt]. lia.
  - intros Hok acts w. apply run_total. exact Hok.
Qed.

Lemma high_score_monotone_and_saved_witness :
  let w := mkWorld (mkGameState (Bird.mk 15 (10 # 1) ((-2) # 1))
                      [Pipe.mk 12 10 7 false; Pipe.mk 40 9 7 false]
                      3 3 PLAYING AUTO_RESTART false) [3] in
  let acts := [Frame 0; Restart (Bird.mk 15 (10 # 1) 0);
               Key (Some " "%string); Frame 4] in
  exists w', run DEFAULT_CONFIG acts w = Ok w'
    /\ high_score (game w) <= high_score (game w')
    /\ high_score (game w') = 4
    /\ score (game w') = 0
    /\ saves w' = [4; 3].
Proof.
  intros w acts. eexists. split; [vm_compute; reflexivity|].
  destruct (high_score_monotone_and_saved DEFAULT_CONFIG) as (_ & Hruns & _).
  destruct (Hruns acts w _ ltac:(vm_compute; reflexivity)) as (Hmono & _ & _).
  split; [exact Hmono|]. repeat split.
Defined.

(* ================================================================== *)
(** * Further properties of the code *)

(** ** Keys *)

(** The five things [handle_input] can do. *)
Lemma handle_input_cases (state : GameState) (config : Config)
    (key : option string) :
  handle_input state config key = state
  \/ (exists k, key = Some k /\ (lower k = "q"%string \/ k = ctrl_c)
        /\ handle_input state config key = set_status state EXITING)
  \/ (key = Some " "%string /\ status state = PLAYING
        /\ handle_input state config key
           = set_bird state (Bird.flap (bird state) config))
  \/ (exists k, key = Some k /\ lower k = "y"%string /\ status state = PROMPTED
        /\ handle_input state config key = set_status state EXITING)
  \/ (exists k, key = Some k /\ lower k = "n"%string /\ status state = PROMPTED
        /\ handle_input state config key
           = set_status (set_claude_ready state false) PLAYING).
Proof.
  unfold handle_input. destruct key as [k|]; [|left; reflexivity].
  split_keys; cbn [orb andb];
    destruct (status state) eqn:Hst; cbn [GameStatus_eqb];
    solve [ left; reflexivity
          | right; left; exists k; repeat split; auto
          | right; right; left; subst k; repeat split; auto
          | right; right; right; left; exists k; repeat split; auto
          | right; right; right; right; exists k; repeat split; auto ].
Qed.

Lemma handle_input_quit (state : GameState) (config : Config) (k : string) :
  lower k = "q"%string \/ k = ctrl_c ->
  handle_input state config (Some k) = set_status state EXITING.
Proof.
  intros Hq. unfold handle_input.
  destruct (String.eqb_spec (lower k) "q"); [reflexivity|].
  destruct (String.eqb_spec k ctrl_c); [reflexivity|].
  destruct Hq; contradiction.
Qed.

(** X1.  After [handle_input] the status is Exiting exactly when it was
    Exiting before, or the key is a quit key ([q], [Q] or Ctrl+C, in
    any status), or the status was Prompted and the key confirms ([y]
    or [Y]).  No other key ends the session. *)
Theorem handle_input_exits_iff (state : GameState) (config : Config)
    (key : option string) :
  status (handle_input state config key) = EXITING <->
  status state = EXITING
  \/ (exists k, key = Some k /\ (lower k = "q"%string \/ k = ctrl_c))
  \/ (status state = PROMPTED /\ exists k, key = Some k /\ lower k = "y"%string).
Proof.
  split.
  - destruct (handle_input_cases state config key)
      as [E | [(k & Hk & Hq & E) | [(Hk & Hst & E) | [(k & Hk & Hy & Hst & E)
         | (k & Hk & Hn & Hst & E)]]]]; rewrite E; cbn [status set_status set_bird
         set_claude_ready]; intros H; eauto 8; try discriminate H.
  - intros [H | [(k & -> & Hq) | (Hp & k & -> & Hy)]].
    + destruct (handle_input_cases state config key)
        as [E | [(k & Hk & Hq & E) | [(Hk & Hst & E) | [(k & Hk & Hy & Hst & E)
           | (k & Hk & Hn & Hst & E)]]]]; rewrite E; cbn [status set_status set_bird
           set_claude_ready]; congruence.
    + rewrite handle_input_quit by exact Hq. reflexivity.
    + destruct (handle_input_cases state config (Some k))
        as [E | [(k' & Hk & Hq & E) | [(Hk & Hst & E) | [(k' & Hk & Hy' & Hst & E)
           | (k' & Hk & Hn & Hst & E)]]]]; rewrite E; cbn [status set_status];
        try reflexivity; try congruence.
      (* the key was ignored: impossible for y while Prompted *)
      exfalso. unfold handle_input in E. rewrite Hy, Hp in E.
      destruct (String.eqb k ctrl_c); destruct (String.eqb k " ");
        cbn in E; apply (f_equal status) in E; cbn in E; congruence.
Qed.

(** X2.  Whatever the key, [handle_input] leaves the pipes, the score,
    the high score and the mode alone; it changes the bird only for a
    space while Playing; the status stays, or becomes Exiting, or goes
    from Prompted to Playing; and the ready flag is only ever cleared,
    together with that last transition.  In particular no key brings a
    Dead or Exiting session back to Playing. *)
Theorem handle_input_frame (state : GameState) (config : Config)
    (key : option string) :
  let state' := handle_input state config key in
  pipes state' = pipes state
  /\ score state' = score state
  /\ high_score state' = high_score state
  /\ mode state' = mode state
  /\ (bird state' <> bird state ->
        key = Some " "%string /\ status state = PLAYING
        /\ bird state' = Bird.flap (bird state) config)
  /\ (status state' = status state
      \/ status state' = EXITING
      \/ (status state = PROMPTED /\ status state' = PLAYING))
  /\ (claude_ready state' = claude_ready state
      \/ (claude_ready state' = false
          /\ status state = PROMPTED /\ status state' = PLAYING)).
Proof.
  cbn zeta.
  destruct (handle_input_cases state config key)
    as [E | [(k & Hk & Hq & E) | [(Hk & Hst & E) | [(k & Hk & Hy & Hst & E)
       | (k & Hk & Hn & Hst & E)]]]]; rewrite E;
    cbn [pipes score high_score mode bird status claude_ready
         set_status set_bird set_claude_ready];
    repeat apply conj; try reflexivity; try (intros H; congruence); auto.
Qed.

(** ** What a frame leaves alone, and when it fails *)

(** X3.  A frame that completes never changes the column of the bird,
    the mode or the ready flag; it never lowers the score; it keeps
    every earlier save; and the only status it changes is Playing,
    which it may turn into Dead. *)
Theorem update_game_frame (r : Z) (w : World) (config : Config) (w' : World) :
  update_game r w config = Ok w' ->
  Bird.x (bird (game w')) = Bird.x (bird (game w))
  /\ mode (game w') = mode (game w)
  /\ claude_ready (game w') = claude_ready (game w)
  /\ score (game w) <= score (game w')
  /\ (exists news, saves w' = news ++ saves w)
  /\ (status (game w') = status (game w)
      \/ (status (game w) = PLAYING /\ status (game w') = DEAD)).
Proof.
  intros Hrun.
  destruct (status (game w)) eqn:Hst;
    try (rewrite update_game_idle in Hrun by congruence;
         injection Hrun as <-;
         repeat apply conj; try reflexivity; try lia;
         [exists []; reflexivity | left; exact Hst]).
  destruct (update_game_playing_inv r w config w' Hst Hrun)
    as (spawned & _ & _ & _ & Hrec & Hbird & Hmode & Hready & Hstatus).
  destruct Hrec as (Hscore & _ & _ & _ & _ & news & Hnews & _).
  repeat apply conj; try assumption.
  - rewrite Hbird. reflexivity.
  - exists news. exact Hnews.
  - rewrite Hstatus.
    destruct (physics.check_collision _ _ _ _); [right | left]; auto.
Qed.

Lemma update_game_frame_witness :
  let w := mkWorld (mkGameState (Bird.mk 15 (19 # 1) (2 # 1))
                      [Pipe.mk 30 9 7 false] 2 5 PLAYING SINGLE_LIFE false) [5] in
  exists w', update_game 0 w DEFAULT_CONFIG = Ok w'
    /\ status (game w') = DEAD
    /\ Bird.x (bird (game w')) = 15 /\ mode (game w') = SINGLE_LIFE.
Proof.
  intros w. eexists. split; [vm_compute; reflexivity|].
  split; [reflexivity|].
  destruct (update_game_frame 0 w DEFAULT_CONFIG _ ltac:(vm_compute; reflexivity))
    as (Hx & Hm & _).
  split; [exact Hx | exact Hm].
Defined.

Lemma spawn_pipe_raises (r : Z) (state : GameState) (config : Config) :
  ~ spawn_range_ok config -> spawn_pipe r state config = Raise ValueError.
Proof.
  unfold spawn_range_ok, spawn_pipe, randint. intros Hno.
  destruct (screen_height config - spawn_margin config <? spawn_margin config) eqn:E.
  - reflexivity.
  - apply Z.ltb_ge in E. lia.
Qed.

(** X4.  A frame with nowhere to put the gap fails: when the status is
    Playing, a pipe is due to spawn, and the range of [random.randint]
    is empty, that is [screen_height - margin < margin] with
    [margin = pipe_gap // 2 + 2], [update_game] raises [ValueError],
    whatever the generator holds. *)
Theorem update_game_raises_on_empty_range (r : Z) (w : World) (config : Config) :
  status (game w) = PLAYING ->
  spawn_due config (advance_and_retire config (pipes (game w))) = true ->
  screen_height config - spawn_margin config < spawn_margin config ->
  update_game r w config = Raise ValueError.
Proof.
  intros Hst Hdue Hlt.
  unfold update_game. rewrite Hst.
  cbn [GameStatus_eqb negb set_bird set_pipes pipes].
  rewrite Hdue.
  rewrite spawn_pipe_raises by (unfold spawn_range_ok; lia).
  reflexivity.
Qed.

(** A field of height 9 is too low for the default gap of 7: the
    margin is 5 and the range [5, 4] is empty. *)
Lemma update_game_raises_on_empty_range_witness :
  let config := mkConfig (1 # 2) ((-2) # 1) (8 # 1) 1 7 25 4 30 60 9 (1 # 1)
                         "~/.flappy-claude/highscore" "/tmp/flappy-claude-signal" in
  let w := mkWorld (mkGameState (Bird.mk 15 (4 # 1) 0) [] 0 0 PLAYING
                      AUTO_RESTART false) [] in
  spawn_margin config = 5
  /\ update_game 0 w config = Raise ValueError.
Proof.
  intros config w. split; [reflexivity|].
  apply (update_game_raises_on_empty_range 0 w config).
  - reflexivity.
  - reflexivity.
  - vm_compute. reflexivity.
Defined.

(** ** Invariants of the obstacle stream *)

Lemma pipe_progress_Forall (Q : Pipe.t -> Prop) (ps ps' : list Pipe.t) :
  (forall p p', geometry p' = geometry p -> Q p -> Q p') ->
  Forall2 pipe_progress ps ps' -> Forall Q ps -> Forall Q ps'.
Proof.
  intros Hgeo Hall. induction Hall as [|p p' ps ps' [Hg _] _ IH]; intros HQ.
  - constructor.
  - inversion HQ; subst. constructor; [eapply Hgeo; eassumption | auto].
Qed.

Lemma geometry_x (p p' : Pipe.t) : geometry p' = geometry p -> Pipe.x p' = Pipe.x p.
Proof. unfold geometry. congruence. Qed.

Lemma geometry_gap (p p' : Pipe.t) :
  geometry p' = geometry p ->
  Pipe.gap_y p' = Pipe.gap_y p /\ Pipe.gap_size p' = Pipe.gap_size p.
Proof. unfold geometry. split; congruence. Qed.

Lemma retire_spec_In (config : Config) (ps : list Pipe.t) (p : Pipe.t) :
  In p (retire_spec config ps) <-> In p ps /\ - pipe_width config < Pipe.x p.
Proof.
  unfold retire_spec. rewrite filter_In.
  destruct (Z.leb_spec (Pipe.x p) (- pipe_width config)); cbn [negb];
    split; intros [H1 H2]; split; try assumption; try lia; try discriminate;
    reflexivity.
Qed.

(** The pipes that enter the scoring loop of a Playing frame: the
    advanced and retired ones, followed by what was spawned. *)
Lemma update_game_entering (r : Z) (w : World) (config : Config) (w' : World) :
  status (game w) = PLAYING ->
  update_game r w config = Ok w' ->
  let kept := retire_spec config
                (map (fun p => Pipe.update p config) (pipes (game w))) in
  exists spawned,
    Forall2 pipe_progress (kept ++ spawned) (pipes (game w'))
    /\ (spawned = []
        \/ spawn_due config kept = true
           /\ exists gap_y,
                spawn_margin config <= gap_y
                  <= screen_height config - spawn_margin config
                /\ spawned = [Pipe.new (screen_width config) gap_y (pipe_gap config)]).
Proof.
  intros Hst Hrun kept.
  destruct (update_game_playing_inv r w config w' Hst Hrun)
    as (spawned & Hsp & Hall & _).
  rewrite advance_and_retire_spec in Hsp, Hall. fold kept in Hsp, Hall.
  exists spawned. split; [exact Hall|].
  destruct (spawn_due config kept); [right; split; [reflexivity | exact Hsp] | left; exact Hsp].
Qed.

(** X5.  With a non-negative pipe speed and a field wider than
    [-pipe_width], the frames keep every live pipe inside the window
    [-pipe_width < x <= screen_width]: a pipe is in the list only
    between its spawn column and the retirement line. *)
Theorem pipes_stay_in_window (r : Z) (w : World) (config : Config) (w' : World) :
  0 <= pipe_speed config ->
  - pipe_width config < screen_width config ->
  Forall (in_window config) (pipes (game w)) ->
  update_game r w config = Ok w' ->
  Forall (in_window config) (pipes (game w')).
Proof.
  intros Hspeed Hwide Hin Hrun.
  destruct (status (game w)) eqn:Hst;
    try (rewrite update_game_idle in Hrun by congruence;
         injection Hrun as <-; exact Hin).
  destruct (update_game_entering r w config w' Hst Hrun) as (spawned & Hall & Hsp).
  eapply pipe_progress_Forall; [|exact Hall|].
  - intros p p' Hg. unfold in_window. rewrite (geometry_x _ _ Hg). trivial.
  - apply Forall_app. split.
    + apply Forall_forall. intros p Hp. apply retire_spec_In in Hp.
      destruct Hp as [Hp Hleft]. apply in_map_iff in Hp.
      destruct Hp as (q & <- & Hq).
      rewrite Forall_forall in Hin. specialize (Hin q Hq).
      unfold in_window, Pipe.update in *. cbn [Pipe.x] in *. lia.
    + destruct Hsp as [-> | (_ & gap_y & _ & ->)]; repeat constructor;
        unfold Pipe.new; cbn [Pipe.x]; lia.
Qed.

Lemma pipes_stay_in_window_witness :
  let w := mkWorld (mkGameState (Bird.mk 15 (10 # 1) ((-2) # 1))
                      [Pipe.mk (-3) 8 7 true; Pipe.mk 34 10 7 false]
                      1 1 PLAYING AUTO_RESTART false) [] in
  exists w', update_game 2 w DEFAULT_CONFIG = Ok w'
    /\ map Pipe.x (pipes (game w')) = [33; 60]
    /\ Forall (in_window DEFAULT_CONFIG) (pipes (game w')).
Proof.
  intros w. eexists. split; [vm_compute; reflexivity|].
  split; [reflexivity|].
  apply (pipes_stay_in_window 2 w DEFAULT_CONFIG _).
  - simpl. lia.
  - simpl. lia.
  - repeat constructor; unfold in_window; simpl; lia.
  - vm_compute. reflexivity.
Defined.

Lemma sorted_same_x (R : Z -> Z -> Prop) (ps ps' : list Pipe.t) :
  Forall2 (fun p p' => Pipe.x p' = Pipe.x p) ps ps' ->
  StronglySorted (fun p q => R (Pipe.x p) (Pipe.x q)) ps ->
  StronglySorted (fun p q => R (Pipe.x p) (Pipe.x q)) ps'.
Proof.
  induction 1 as [|p p' ps ps' Hx Hrest IH]; intros Hsorted; [constructor|].
  inversion Hsorted as [|? ? Htail Hhead]; subst.
  constructor; [apply IH; exact Htail|].
  clear IH Hsorted Htail.
  induction Hrest as [|q q' qs qs' Hq _ IHq]; [constructor|].
  inversion Hhead; subst. constructor; [|apply IHq; assumption].
  rewrite Hx, Hq. assumption.
Qed.

Lemma sorted_filter {A : Type} (R : A -> A -> Prop) (f : A -> bool) (l : list A) :
  StronglySorted R l -> StronglySorted R (filter f l).
Proof.
  induction 1 as [|a l _ IH Hhead]; cbn; [constructor|].
  destruct (f a); [|exact IH].
  constructor; [exact IH|].
  rewrite Forall_forall in *. intros b Hb. apply Hhead.
  apply filter_In in Hb. tauto.
Qed.

Lemma sorted_append {A : Type} (R : A -> A -> Prop) (l : list A) (a : A) :
  StronglySorted R l -> Forall (fun b => R b a) l -> StronglySorted R (l ++ [a]).
Proof.
  induction 1 as [|b l _ IH Hhead]; intros Hall; cbn.
  - repeat constructor.
  - inversion Hall; subst. constructor; [apply IH; assumption|].
    rewrite Forall_app. split; [exact Hhead | repeat constructor; assumption].
Qed.

Lemma sorted_before_last {A : Type} (R : A -> A -> Prop) (l : list A) (a : A) :
  StronglySorted R (l ++ [a]) -> Forall (fun b => R b a) l.
Proof.
  induction l as [|b l IH]; cbn; intros H; [constructor|].
  inversion H as [|? ? Htail Hhead]; subst.
  constructor; [|apply IH; exact Htail].
  rewrite Forall_app in Hhead. destruct Hhead as [_ Hlast].
  inversion Hlast; assumption.
Qed.

Lemma spaced_update (config : Config) (ps : list Pipe.t) :
  spaced config ps -> spaced config (map (fun p => Pipe.update p config) ps).
Proof.
  unfold spaced.
  induction 1 as [|p ps _ IH Hhead]; cbn [map]; constructor; [exact IH|].
  rewrite Forall_map. eapply Forall_impl; [|exact Hhead].
  intros q Hq. unfold Pipe.update. cbn [Pipe.x]. cbn beta in Hq. lia.
Qed.

(** X6.  With a non-negative spacing the frames keep any two live
    pipes more than [pipe_spacing] columns apart, the earlier one on
    the left: the stream never bunches up, however long it runs. *)
Theorem pipes_stay_spaced (r : Z) (w : World) (config : Config) (w' : World) :
  0 <= pipe_spacing config ->
  spaced config (pipes (game w)) ->
  update_game r w config = Ok w' ->
  spaced config (pipes (game w')).
Proof.
  intros Hspacing Hsp Hrun.
  destruct (status (game w)) eqn:Hst;
    try (rewrite update_game_idle in Hrun by congruence;
         injection Hrun as <-; exact Hsp).
  destruct (update_game_entering r w config w' Hst Hrun) as (spawned & Hall & Hnew).
  set (kept := retire_spec config
                 (map (fun p => Pipe.update p config) (pipes (game w)))) in *.
  assert (Hkept : spaced config kept).
  { apply sorted_filter, spaced_update, Hsp. }
  unfold spaced.
  apply (sorted_same_x (fun a b => a + pipe_spacing config < b) (kept ++ spawned));
    [apply pipe_progress_same_x; exact Hall|].
  destruct Hnew as [-> | (Hdue & gap_y & _ & ->)];
    [rewrite app_nil_r; exact Hkept|].
  apply sorted_append; [exact Hkept|].
  apply spawn_due_iff in Hdue.
  destruct Hdue as [-> | (older & newest & E & Hx)]; [constructor|].
  rewrite E in *. unfold spaced in Hkept.
  pose proof (sorted_before_last _ _ _ Hkept) as Hleft.
  apply Forall_app. split.
  - eapply Forall_impl; [|exact Hleft].
    intros old Hold. cbn beta in Hold. unfold Pipe.new. cbn [Pipe.x]. lia.
  - repeat constructor. unfold Pipe.new. cbn [Pipe.x]. lia.
Qed.

Lemma pipes_stay_spaced_witness :
  let w := mkWorld (mkGameState (Bird.mk 15 (10 # 1) ((-2) # 1))
                      [Pipe.mk 5 8 7 true; Pipe.mk 34 10 7 false]
                      1 1 PLAYING AUTO_RESTART false) [] in
  exists w', update_game 2 w DEFAULT_CONFIG = Ok w'
    /\ map Pipe.x (pipes (game w')) = [4; 33; 60]
    /\ spaced DEFAULT_CONFIG (pipes (game w')).
Proof.
  intros w. eexists. split; [vm_compute; reflexivity|].
  split; [reflexivity|].
  apply (pipes_stay_spaced 2 w DEFAULT_CONFIG _).
  - simpl. lia.
  - unfold spaced. repeat constructor; simpl; lia.
  - vm_compute. reflexivity.
Defined.

(** X7.  The frames keep the shape of the pipes: when every live pipe
    has the gap size of the configuration and a gap centre of the draw
    range, so has every pipe after the frame, the new one included; and
    then, for a non-negative gap size and a screen of at most [2^51]
    rows (where the floats of [_is_pipe_at] are exact), every live pipe
    has its rows of open cells on the screen, between row 1 and row
    [screen_height - 2]. *)
Theorem pipes_stay_well_shaped (r : Z) (w : World) (config : Config) (w' : World) :
  0 <= pipe_gap config ->
  screen_height config <= 2 ^ 51 ->
  Forall (well_shaped config) (pipes (game w)) ->
  update_game r w config = Ok w' ->
  Forall (well_shaped config) (pipes (game w'))
  /\ Forall (fun p => 1 <= gap_top p /\ gap_top p <= gap_bottom p
                      /\ gap_bottom p <= screen_height config - 2)
            (pipes (game w')).
Proof.
  intros Hgap Hheight Hshape Hrun.
  assert (Hafter : Forall (well_shaped config) (pipes (game w'))).
  { destruct (status (game w)) eqn:Hst;
      try (rewrite update_game_idle in Hrun by congruence;
           injection Hrun as <-; exact Hshape).
    destruct (update_game_entering r w config w' Hst Hrun) as (spawned & Hall & Hnew).
    eapply pipe_progress_Forall; [|exact Hall|].
    - intros p p' Hg. unfold well_shaped.
      destruct (geometry_gap _ _ Hg) as [-> ->]. trivial.
    - apply Forall_app. split.
      + apply Forall_forall. intros p Hp. apply retire_spec_In in Hp.
        destruct Hp as [Hp _]. apply in_map_iff in Hp.
        destruct Hp as (q & <- & Hq).
        rewrite Forall_forall in Hshape. apply (Hshape q Hq).
      + destruct Hnew as [-> | (_ & gap_y & Hrange & ->)]; repeat constructor;
          unfold Pipe.new; cbn [Pipe.gap_y]; lia. }
  split; [exact Hafter|].
  eapply Forall_impl; [|exact Hafter].
  intros p [Hsize Hrange].
  pose proof (spawn_band_on_screen config (Pipe.gap_y p) Hgap Hheight Hrange) as Hband.
  cbn zeta in Hband.
  unfold gap_top, gap_bottom, Pipe.new in *.
  cbn [Pipe.gap_y Pipe.gap_size] in Hband.
  rewrite Hsize. exact Hband.
Qed.

Lemma pipes_stay_well_shaped_witness :
  let w := mkWorld (mkGameState (Bird.mk 15 (10 # 1) ((-2) # 1))
                      [Pipe.mk 34 10 7 false]
                      1 1 PLAYING AUTO_RESTART false) [] in
  exists w', update_game 10 w DEFAULT_CONFIG = Ok w'
    /\ map geometry (pipes (game w')) = [(33, 10, 7); (60, 15, 7)]
    /\ Forall (well_shaped DEFAULT_CONFIG) (pipes (game w')).
Proof.
  intros w. eexists. split; [vm_compute; reflexivity|].
  split; [reflexivity|].
  apply (pipes_stay_well_shaped 10 w DEFAULT_CONFIG _).
  - simpl. lia.
  - vm_compute. discriminate.
  - constructor; [|constructor].
    unfold well_shaped. vm_compute. repeat split; discriminate.
  - vm_compute. reflexivity.
Defined.

(** ** The score, the high score and the saves *)

Lemma handle_input_score (state : GameState) (config : Config) (key : option string) :
  score (handle_input state config key) = score state.
Proof.
  destruct (handle_input_cases state config key)
    as [E | [(k & _ & _ & E) | [(_ & _ & E) | [(k & _ & _ & _ & E)
       | (k & _ & _ & _ & E)]]]]; rewrite E; reflexivity.
Qed.

Lemma observe_signal_score (state : GameState) (ready : bool) :
  score (observe_signal state ready) = score state.
Proof.
  unfold observe_signal.
  repeat match goal with
         | |- context [if ?c then _ else _] => destruct c
         end; reflexivity.
Qed.

Lemma update_game_score_high (r : Z) (w : World) (config : Config) (w' : World) :
  score (game w) <= high_score (game w) ->
  update_game r w config = Ok w' ->
  score (game w) <= score (game w')
  /\ score (game w') <= high_score (game w')
  /\ high_score (game w') = Z.max (high_score (game w)) (score (game w')).
Proof.
  intros Hle Hrun.
  destruct (status (game w)) eqn:Hst;
    try (rewrite update_game_idle in Hrun by congruence;
         injection Hrun as <-; lia).
  destruct (update_game_playing_inv r w config w' Hst Hrun)
    as (spawned & _ & _ & _ & Hrec & _).
  destruct Hrec as (Hs & Hh & Hmax & Hsame & Hnew & _).
  lia.
Qed.

(** X8.  A frame that starts with the score not above the high score
    ends so, and then the high score is the larger of the old high
    score and the new score.  Hence over any sequence of keys,
    signals, frames and resets [0 <= score <= high_score] is kept. *)
Theorem score_never_above_high_score (config : Config) :
  (forall r w w',
     score (game w) <= high_score (game w) ->
     update_game r w config = Ok w' ->
     score (game w') <= high_score (game w')
     /\ high_score (game w') = Z.max (high_score (game w)) (score (game w')))
  /\ (forall acts w w',
        0 <= score (game w) <= high_score (game w) ->
        run config acts w = Ok w' ->
        0 <= score (game w') <= high_score (game w')).
Proof.
  split.
  - intros r w w' Hle Hrun.
    destruct (update_game_score_high r w config w' Hle Hrun) as (_ & H1 & H2).
    split; assumption.
  - induction acts as [|a rest IH]; intros w w' Hinv Hrun; cbn [run] in Hrun.
    + injection Hrun as <-. exact Hinv.
    + destruct (perform config a w) as [w1|e] eqn:E; [|discriminate Hrun].
      cbn [bind] in Hrun. apply (IH w1 w'); [|exact Hrun].
      destruct a as [key | ready | r | b0]; cbn [perform] in E.
      * injection E as <-. cbn [game].
        rewrite handle_input_score, handle_input_high_score. exact Hinv.
      * injection E as <-. cbn [game].
        rewrite observe_signal_score, observe_signal_high_score. exact Hinv.
      * destruct (update_game_score_high r w config w1 ltac:(lia) E) as (? & ? & ?).
        lia.
      * injection E as <-. cbn. lia.
Qed.

Lemma score_never_above_high_score_witness :
  let w := mkWorld (mkGameState (Bird.mk 15 (10 # 1) ((-2) # 1))
                      [Pipe.mk 12 10 7 false; Pipe.mk 40 9 7 false]
                      3 3 PLAYING AUTO_RESTART false) [3] in
  exists w', update_game 0 w DEFAULT_CONFIG = Ok w'
    /\ score (game w') = 4
    /\ score (game w') <= high_score (game w').
Proof.
  intros w. eexists. split; [vm_compute; reflexivity|].
  split; [reflexivity|].
  destruct (score_never_above_high_score DEFAULT_CONFIG) as [Hframe _].
  apply (Hframe 0 w _).
  - simpl. lia.
  - vm_compute. reflexivity.
Defined.

Lemma score_pipe_store_sound (config : Config) (pipe : Pipe.t) (w : World) :
  store_sound w -> store_sound (snd (score_pipe config pipe w)).
Proof.
  intros [Hsorted Hbelow]. unfold score_pipe.
  destruct (negb (Pipe.passed pipe)
            && physics.check_pipe_passed config (bird (game w)) pipe);
    [|split; assumption].
  cbn [set_score score high_score].
  destruct (score (game w) + 1 >? high_score (game w)) eqn:Hrec; cbn [snd].
  - apply Z.gtb_gt in Hrec. split; cbn [saves game high_score set_high_score].
    + constructor; [exact Hsorted|].
      eapply Forall_impl; [|exact Hbelow]. cbn beta. intros v Hv. lia.
    + constructor; [lia|].
      eapply Forall_impl; [|exact Hbelow]. cbn beta. intros v Hv. lia.
  - split; cbn [saves game high_score]; assumption.
Qed.

Lemma score_pipes_store_sound (config : Config) (ps : list Pipe.t) :
  forall w, store_sound w -> store_sound (snd (score_pipes config ps w)).
Proof.
  induction ps as [|pipe rest IH]; intros w Hw; cbn [score_pipes]; [exact Hw|].
  pose proof (score_pipe_store_sound config pipe w Hw) as H1.
  destruct (score_pipe config pipe w) as [pipe1 w1]. cbn [snd] in H1.
  pose proof (IH w1 H1) as H2.
  destruct (score_pipes config rest w1) as [rest1 w2]. exact H2.
Qed.

Lemma update_game_store_sound (r : Z) (w : World) (config : Config) (w' : World) :
  store_sound w -> update_game r w config = Ok w' -> store_sound w'.
Proof.
  intros Hw Hrun. unfold update_game in Hrun.
  destruct (negb (GameStatus_eqb (status (game w)) PLAYING));
    [injection Hrun as <-; exact Hw|].
  cbn [set_bird set_pipes pipes] in Hrun.
  set (st0 := set_pipes (set_bird (game w) _) _) in Hrun.
  assert (Hst0 : high_score st0 = high_score (game w)) by reflexivity.
  destruct (if spawn_due config (advance_and_retire config (pipes (game w)))
            then spawn_pipe r st0 config else Ok st0) as [st1|e] eqn:Hsp;
    [|discriminate Hrun].
  assert (Hst1 : high_score st1 = high_score (game w)).
  { destruct (spawn_due config _).
    - destruct (spawn_pipe_inv _ _ _ _ Hsp) as (gap_y & _ & ->). exact Hst0.
    - injection Hsp as <-. exact Hst0. }
  cbn [bind] in Hrun.
  pose proof (score_pipes_store_sound config (pipes st1) (mkWorld st1 (saves w))) as Hloop.
  destruct (score_pipes config (pipes st1) (mkWorld st1 (saves w))) as [ps' w1].
  cbn [snd] in Hloop.
  assert (H1 : store_sound w1).
  { apply Hloop. destruct Hw as [Hs Hb]. split; cbn [saves game]; [exact Hs|].
    rewrite Hst1. exact Hb. }
  injection Hrun as <-. destruct H1 as [Hs Hb].
  split; cbn [saves game]; [exact Hs|].
  destruct (physics.check_collision _ _ _ _); exact Hb.
Qed.

(** X9.  Every value handed to [save_high_score] is larger than all the
    values saved before it and is not above the high score: when that
    holds of the saves at the start, it holds after any sequence of
    keys, signals, frames and resets.  The store is never overwritten
    with a lower score. *)
Theorem saves_only_grow (config : Config) (acts : list action) (w w' : World) :
  store_sound w ->
  run config acts w = Ok w' ->
  store_sound w'.
Proof.
  revert w. induction acts as [|a rest IH]; intros w Hw Hrun; cbn [run] in Hrun.
  - injection Hrun as <-. exact Hw.
  - destruct (perform config a w) as [w1|e] eqn:E; [|discriminate Hrun].
    cbn [bind] in Hrun. apply (IH w1); [|exact Hrun].
    destruct Hw as [Hs Hb].
    destruct a as [key | ready | r | b0]; cbn [perform] in E.
    + injection E as <-. split; cbn [saves game]; [exact Hs|].
      rewrite handle_input_high_score. exact Hb.
    + injection E as <-. split; cbn [saves game]; [exact Hs|].
      rewrite observe_signal_high_score. exact Hb.
    + apply (update_game_store_sound r w config w1); [split; assumption | exact E].
    + injection E as <-. split; cbn [saves game]; [exact Hs | exact Hb].
Qed.

Lemma saves_only_grow_witness :
  let w := mkWorld (mkGameState (Bird.mk 15 (10 # 1) ((-2) # 1))
                      [Pipe.mk 11 10 7 false; Pipe.mk 12 9 7 false]
                      3 3 PLAYING AUTO_RESTART false) [3; 1] in
  let acts := [Frame 0; Restart (Bird.mk 15 (10 # 1) 0); Frame 4] in
  exists w', run DEFAULT_CONFIG acts w = Ok w'
    /\ saves w' = [5; 4; 3; 1]
    /\ store_sound w'.
Proof.
  intros w acts. eexists. split; [vm_compute; reflexivity|].
  split; [reflexivity|].
  apply (saves_only_grow DEFAULT_CONFIG acts w _).
  - split; cbn; repeat constructor; lia.
  - vm_compute. reflexivity.
Defined.

(** ** The band and the picture *)

(** X10.  The band of open rows of a pipe with [0 <= gap_size <= 2 *
    gap_y] (every spawned pipe is one) and [2 * gap_y + gap_size < 2^53]
    (no float of [_is_pipe_at] rounds) runs from [gap_top] to
    [gap_top + gap_size], both included: an obstacle of gap size [g]
    has [g + 1] open rows, not [g], in each column of its span. *)
Theorem band_has_gap_size_plus_one_rows (pipe : Pipe.t) (config : Config)
    (col row : Z) :
  0 <= Pipe.gap_size pipe <= 2 * Pipe.gap_y pipe ->
  2 * Pipe.gap_y pipe + Pipe.gap_size pipe < 2 ^ 53 ->
  in_span config pipe col ->
  gap_bottom pipe = gap_top pipe + Pipe.gap_size pipe
  /\ (_is_pipe_at pipe config col row = false
      <-> gap_top pipe <= row <= gap_top pipe + Pipe.gap_size pipe).
Proof.
  intros Hsize Hbound Hspan.
  assert (Hheight : gap_bottom pipe = gap_top pipe + Pipe.gap_size pipe).
  { rewrite gap_top_exact, gap_bottom_exact by lia.
    Z.to_euclidean_division_equations. lia. }
  split; [exact Hheight|].
  rewrite <- Hheight.
  destruct (_is_pipe_at pipe config col row) eqn:E.
  - apply is_pipe_at_true_iff in E. destruct E as [_ Hout].
    split; [discriminate | intros H; contradiction].
  - split; [intros _ | reflexivity].
    destruct (Z_le_dec (gap_top pipe) row) as [H1 | H1];
      destruct (Z_le_dec row (gap_bottom pipe)) as [H2 | H2]; try lia;
      exfalso;
      assert (_is_pipe_at pipe config col row = true) as Habs
        by (apply is_pipe_at_true_iff; split; [exact Hspan | lia]);
      congruence.
Qed.

Lemma band_has_gap_size_plus_one_rows_witness :
  let pipe := Pipe.mk 20 10 7 false in
  gap_bottom pipe = gap_top pipe + 7
  /\ (_is_pipe_at pipe DEFAULT_CONFIG 22 9 = false
      <-> gap_top pipe <= 9 <= gap_top pipe + 7).
Proof.
  apply (band_has_gap_size_plus_one_rows (Pipe.mk 20 10 7 false) DEFAULT_CONFIG 22 9).
  - simpl. lia.
  - vm_compute. reflexivity.
  - unfold in_span. simpl. lia.
Defined.

Lemma py_range_In (n c : Z) : In c (py_range n) <-> 0 <= c < n.
Proof.
  unfold py_range. rewrite in_map_iff. split.
  - intros (k & <- & Hk). apply in_seq in Hk. lia.
  - intros Hc. exists (Z.to_nat c). split; [lia|]. apply in_seq. lia.
Qed.

Lemma py_range_length (n : Z) : List.length (py_range n) = Z.to_nat n.
Proof. unfold py_range. rewrite length_map, length_seq. reflexivity. Qed.

Lemma count_in_seq (t : Z) (m start : nat) :
  List.length (filter (fun c => c =? t) (map Z.of_nat (seq start m)))
  = if (Z.of_nat start <=? t) && (t <? Z.of_nat (start + m)) then 1%nat else 0%nat.
Proof.
  revert start. induction m as [|m IH]; intros start; cbn [seq map filter].
  - destruct (Z.leb_spec (Z.of_nat start) t);
      destruct (Z.ltb_spec t (Z.of_nat (start + 0))); cbn; try reflexivity; lia.
  - rewrite <- Nat.add_succ_comm.
    destruct (Z.eqb_spec (Z.of_nat start) t) as [Heq | Hne]; cbn [List.length];
      rewrite IH;
      destruct (Z.leb_spec (Z.of_nat (S start)) t);
      destruct (Z.ltb_spec t (Z.of_nat (S start + m)));
      destruct (Z.leb_spec (Z.of_nat start) t); cbn [andb]; try reflexivity; lia.
Qed.

Lemma count_in_range (t n : Z) :
  List.length (filter (fun c => c =? t) (py_range n))
  = if (0 <=? t) && (t <? n) then 1%nat else 0%nat.
Proof.
  unfold py_range. rewrite count_in_seq. cbn [Z.of_nat Nat.add].
  destruct (Z.leb_spec 0 t); cbn [andb]; [|reflexivity].
  destruct (Z.ltb_spec t (Z.of_nat (Z.to_nat n)));
    destruct (Z.ltb_spec t n); try reflexivity; lia.
Qed.

Lemma count_concat_map {A B : Type} (P : B -> bool) (Q : A -> bool)
    (g : A -> list B) (l : list A) :
  (forall a, List.length (filter P (g a)) = if Q a then 1%nat else 0%nat) ->
  List.length (filter P (List.concat (map g l))) = List.length (filter Q l).
Proof.
  intros Hrow. induction l as [|a l IH]; cbn [map List.concat filter]; [reflexivity|].
  rewrite filter_app, length_app, IH, Hrow.
  destruct (Q a); reflexivity.
Qed.

Lemma get_char_at_bird (state : GameState) (config : Config) (col row : Z) :
  glyph_eqb BIRD_GLYPH (_get_char_at state config col row)
  = (col =? Bird.x (bird state)) && (row =? int_of_float (Bird.y (bird state))).
Proof.
  unfold _get_char_at.
  destruct ((col =? Bird.x (bird state))
            && (row =? int_of_float (Bird.y (bird state)))); [reflexivity|].
  destruct (existsb _ _); reflexivity.
Qed.

Lemma filter_map_length {A B : Type} (P : B -> bool) (f : A -> B) (l : list A) :
  List.length (filter P (map f l)) = List.length (filter (fun a => P (f a)) l).
Proof.
  induction l as [|a l IH]; cbn [map filter]; [reflexivity|].
  destruct (P (f a)); cbn [List.length]; rewrite IH; reflexivity.
Qed.

Lemma filter_none {A : Type} (P : A -> bool) (l : list A) :
  (forall a, P a = false) -> filter P l = [].
Proof.
  intros HP. induction l as [|a l IH]; cbn [filter]; [reflexivity|].
  rewrite HP. exact IH.
Qed.

(** X11.  The game area has [screen_height] lines of [screen_width]
    characters (none when a dimension is not positive), and the bird is
    drawn in exactly one cell when it is on the screen
    ([0 <= bird.x < screen_width] and [0 <= int(bird.y) < screen_height])
    and in no cell otherwise. *)
Theorem picture_shape_and_bird (state : GameState) (config : Config) :
  List.length (game_area state config) = Z.to_nat (screen_height config)
  /\ Forall (fun line => List.length line = Z.to_nat (screen_width config))
            (game_area state config)
  /\ count_glyph BIRD_GLYPH (game_area state config)
     = if (0 <=? Bird.x (bird state)) && (Bird.x (bird state) <? screen_width config)
          && ((0 <=? int_of_float (Bird.y (bird state)))
              && (int_of_float (Bird.y (bird state)) <? screen_height config))
       then 1%nat else 0%nat.
Proof.
  unfold game_area. split; [|split].
  - rewrite length_map. apply py_range_length.
  - apply Forall_map. apply Forall_forall. intros row _.
    rewrite length_map. apply py_range_length.
  - unfold count_glyph.
    set (bx := Bird.x (bird state)).
    set (brow := int_of_float (Bird.y (bird state))).
    rewrite (count_concat_map _
               (fun row => (row =? brow)
                           && ((0 <=? bx) && (bx <? screen_width config)))).
    + destruct ((0 <=? bx) && (bx <? screen_width config)); cbn [andb].
      * rewrite (filter_ext _ (fun row => row =? brow))
          by (intros row; apply andb_true_r).
        apply count_in_range.
      * rewrite filter_none by (intros row; apply andb_false_r). reflexivity.
    + intros row. rewrite filter_map_length.
      rewrite (filter_ext _ (fun col => (col =? bx) && (row =? brow)))
        by (intros col; apply get_char_at_bird).
      destruct (row =? brow); cbn [andb].
      * rewrite (filter_ext _ (fun col => col =? bx))
          by (intros col; apply andb_true_r).
        apply count_in_range.
      * rewrite filter_none by (intros col; apply andb_false_r). reflexivity.
Qed.

(** The picture of a small field, evaluated: the bird in front of a
    pipe of gap size 1 (two open rows). *)
Example picture_run :
  let config := mkConfig (1 # 2) ((-2) # 1) (8 # 1) 1 1 3 2 30 4 5 (1 # 1)
                         "~/.flappy-claude/highscore" "/tmp/flappy-claude-signal" in
  let state := mkGameState (Bird.mk 1 (3 # 2) 0) [Pipe.mk 1 2 1 false] 0 0
                 PLAYING AUTO_RESTART false in
  game_area state config
  = [[BLANK_GLYPH; BLOCK_GLYPH; BLOCK_GLYPH; BLANK_GLYPH];
     [BLANK_GLYPH; BIRD_GLYPH;  BLANK_GLYPH; BLANK_GLYPH];
     [BLANK_GLYPH; BLANK_GLYPH; BLANK_GLYPH; BLANK_GLYPH];
     [BLANK_GLYPH; BLOCK_GLYPH; BLOCK_GLYPH; BLANK_GLYPH];
     [BLANK_GLYPH; BLOCK_GLYPH; BLOCK_GLYPH; BLANK_GLYPH]].
Proof. reflexivity. Qed.

Lemma existsb_filter_idle {A : Type} (f g : A -> bool) (l : list A) :
  (forall a, g a = false -> f a = false) ->
  existsb f (filter g l) = existsb f l.
Proof.
  intros H. induction l as [|a l IH]; cbn [filter existsb]; [reflexivity|].
  destruct (g a) eqn:E; cbn [existsb]; rewrite IH; [reflexivity|].
  rewrite (H a E). reflexivity.
Qed.

Lemma existsb_same_geometry (config : Config) (col row : Z) (ps ps' : list Pipe.t) :
  Forall2 pipe_progress ps ps' ->
  existsb (fun pipe => _is_pipe_at pipe config col row) ps'
  = existsb (fun pipe => _is_pipe_at pipe config col row) ps.
Proof.
  induction 1 as [|p p' ps ps' [Hg _] _ IH]; cbn [existsb]; [reflexivity|].
  rewrite IH. f_equal.
  unfold _is_pipe_at, gap_top, gap_bottom.
  destruct (geometry_gap _ _ Hg) as [-> ->]. rewrite (geometry_x _ _ Hg).
  reflexivity.
Qed.

(** X12.  Pipes enter and leave the list off screen: after a Playing
    frame the game area shows exactly the pipes the frame started with,
    each moved by [pipe_speed]; the retired pipes would not have been
    drawn, and the pipe spawned at [screen_width] is not drawn yet. *)
Theorem frame_picture (r : Z) (w : World) (config : Config) (w' : World) :
  status (game w) = PLAYING ->
  update_game r w config = Ok w' ->
  game_area (game w') config
  = game_area (set_pipes (game w')
                 (map (fun p => Pipe.update p config) (pipes (game w)))) config.
Proof.
  intros Hst Hrun.
  destruct (update_game_entering r w config w' Hst Hrun) as (spawned & Hall & Hnew).
  unfold game_area. apply map_ext. intros row.
  apply map_ext_in. intros col Hcol. apply py_range_In in Hcol.
  unfold _get_char_at. cbn [bird pipes set_pipes].
  destruct ((col =? Bird.x (bird (game w')))
            && (row =? int_of_float (Bird.y (bird (game w'))))); [reflexivity|].
  rewrite (existsb_same_geometry config col row _ _ Hall).
  rewrite existsb_app.
  assert (Hfresh : existsb (fun pipe => _is_pipe_at pipe config col row) spawned = false).
  { destruct Hnew as [-> | (_ & gap_y & _ & ->)]; [reflexivity|].
    cbn [existsb]. unfold _is_pipe_at, Pipe.new. cbn [Pipe.x].
    destruct (Z.ltb_spec col (screen_width config)); [reflexivity | lia]. }
  rewrite Hfresh, orb_false_r.
  unfold retire_spec. rewrite existsb_filter_idle; [reflexivity|].
  intros p Hp. apply negb_false_iff, Z.leb_le in Hp.
  unfold _is_pipe_at.
  destruct (Z.geb_spec col (Pipe.x p + pipe_width config)); [|lia].
  rewrite orb_true_r. reflexivity.
Qed.

Lemma frame_picture_witness :
  let w := mkWorld (mkGameState (Bird.mk 15 (10 # 1) ((-2) # 1))
                      [Pipe.mk (-3) 8 7 true; Pipe.mk 34 10 7 false]
                      1 1 PLAYING AUTO_RESTART false) [] in
  exists w', update_game 2 w DEFAULT_CONFIG = Ok w'
    /\ map Pipe.x (pipes (game w')) = [33; 60]
    /\ game_area (game w') DEFAULT_CONFIG
       = game_area (set_pipes (game w')
                      [Pipe.mk (-4) 8 7 true; Pipe.mk 33 10 7 false]) DEFAULT_CONFIG.
Proof.
  intros w. eexists. split; [vm_compute; reflexivity|].
  split; [reflexivity|].
  apply (frame_picture 2 w DEFAULT_CONFIG _ eq_refl).
  vm_compute. reflexivity.
Defined.

(** ** The signal file *)

Lemma lstrip_spaces (ws rest : ipc.str) :
  forallb ipc.isspace ws = true -> ipc.lstrip (ws ++ rest) = ipc.lstrip rest.
Proof.
  induction ws as [|c ws IH]; cbn [forallb app]; intros H; [reflexivity|].
  apply andb_true_iff in H. destruct H as [Hc Hws].
  cbn [ipc.lstrip]. rewrite Hc. apply IH. exact Hws.
Qed.

Lemma forallb_rev {A : Type} (f : A -> bool) (l : list A) :
  forallb f (rev l) = forallb f l.
Proof.
  induction l as [|a l IH]; cbn [rev forallb]; [reflexivity|].
  rewrite forallb_app, IH. cbn [forallb]. rewrite andb_true_r. apply andb_comm.
Qed.

Lemma strip_ready (before after : ipc.str) :
  forallb ipc.isspace before = true ->
  forallb ipc.isspace after = true ->
  ipc.strip (before ++ ipc.ready ++ after) = ipc.ready.
Proof.
  intros Hb Ha. unfold ipc.strip.
  rewrite (lstrip_spaces before) by exact Hb.
  change (ipc.lstrip (ipc.ready ++ after)) with (ipc.ready ++ after).
  rewrite rev_app_distr.
  rewrite lstrip_spaces by (rewrite forallb_rev; exact Ha).
  reflexivity.
Qed.

(** X13.  [check_signal_file] answers [True] for a readable file whose
    text is [ready] with any white space before and after it (spaces,
    tabs, line ends, ...), and the comparison is exact otherwise: the
    same text with a capital R, or with more words, answers [False]. *)
Theorem ready_tolerates_white_space (env : ipc.Env) (content : list Byte.byte)
    (before after : ipc.str) :
  ipc.at_path env = ipc.File true content ->
  forallb ipc.isspace before = true ->
  forallb ipc.isspace after = true ->
  (ipc.decode env content = Some (before ++ ipc.ready ++ after) ->
     ipc.check_signal_file env = Ok true)
  /\ (ipc.decode env content
      = Some (before ++ [82; 101; 97; 100; 121]%N ++ after) ->
     ipc.check_signal_file env = Ok false)
  /\ (ipc.decode env content
      = Some (ipc.ready ++ [32]%N ++ ipc.ready) ->
     ipc.check_signal_file env = Ok false).
Proof.
  intros Hfile Hb Ha.
  rewrite check_signal_file_cases, Hfile.
  split; [|split]; intros Hdec; rewrite Hdec; f_equal.
  - apply str_eqb_eq. apply strip_ready; assumption.
  - unfold ipc.strip.
    rewrite (lstrip_spaces before) by exact Hb.
    change (ipc.lstrip ([82; 101; 97; 100; 121]%N ++ after))
      with ([82; 101; 97; 100; 121]%N ++ after).
    rewrite rev_app_distr.
    rewrite lstrip_spaces by (rewrite forallb_rev; exact Ha).
    reflexivity.
Qed.

Lemma ready_tolerates_white_space_witness :
  ipc.check_signal_file
    (ipc.mkEnv (ipc.File true [Byte.x20; Byte.x72; Byte.x65; Byte.x61; Byte.x64;
                               Byte.x79; Byte.x0d; Byte.x0a])
               ipc.utf8_decode)
  = Ok true.
Proof.
  destruct (ready_tolerates_white_space
              (ipc.mkEnv (ipc.File true [Byte.x20; Byte.x72; Byte.x65; Byte.x61;
                                         Byte.x64; Byte.x79; Byte.x0d; Byte.x0a])
                         ipc.utf8_decode)
              [Byte.x20; Byte.x72; Byte.x65; Byte.x61; Byte.x64; Byte.x79;
               Byte.x0d; Byte.x0a]
              [32%N] [13%N; 10%N] eq_refl eq_refl eq_refl) as [Hready _].
  apply Hready. vm_compute. reflexivity.
Defined.

(** X14.  [delete_signal_file] never raises.  It removes a file when
    the directory may be changed, after which [check_signal_file]
    answers [False]; in every other case (no entry, a failing [stat], a
    directory, a directory that may not be changed) it leaves the file
    system as it was.  Deleting twice is the same as deleting once. *)
Theorem delete_signal_file_effect (acc : Access) (env : ipc.Env) :
  exists env',
    delete_signal_file acc env = Ok env'
    /\ ((exists readable content,
           ipc.at_path env = ipc.File readable content
           /\ may_change_dir acc = true)
        -> ipc.at_path env' = ipc.Absent
           /\ ipc.check_signal_file env' = Ok false)
    /\ (~ (exists readable content,
             ipc.at_path env = ipc.File readable content
             /\ may_change_dir acc = true)
        -> env' = env)
    /\ delete_signal_file acc env' = Ok env'.
Proof.
  unfold delete_signal_file, unlink, ipc.exists_.
  destruct env as [n codec]. cbn [ipc.at_path].
  destruct n as [| | |readable content]; cbn [bind negb];
    try (eexists; split; [reflexivity|];
         split; [intros (rd & c & H & _); discriminate H|];
         split; reflexivity).
  destruct (may_change_dir acc) eqn:Hdir; cbn [except_OSError_pass].
  - eexists. split; [reflexivity|]. split; [|split].
    + intros _. split; reflexivity.
    + intros Hno. exfalso. apply Hno. eauto.
    + reflexivity.
  - eexists. split; [reflexivity|]. split; [|split].
    + intros (rd & c & _ & H). discriminate H.
    + reflexivity.
    + cbn; rewrite ?Hdir; reflexivity.
Qed.

(** X15.  [create_signal_file] lets one failure through: a path the
    system calls refuse makes [touch] raise [ValueError], which the
    handler for [OSError] does not catch.  With any other path it does
    not raise and never changes an entry that exists: a file that says
    [ready] still says [ready] after it.  Only a missing file is
    created, empty, so that with a codec that reads the empty file as
    the empty text [check_signal_file] answers [False]; and deleting
    what was created gives the missing file back. *)
Theorem create_signal_file_effect (acc : Access) (env : ipc.Env) :
  (path_refused acc = true -> create_signal_file acc env = Raise ValueError)
  /\ (path_refused acc = false ->
      exists env',
        create_signal_file acc env = Ok env'
        /\ (ipc.at_path env <> ipc.Absent -> env' = env)
        /\ (ipc.check_signal_file env = Ok true -> ipc.check_signal_file env' = Ok true)
        /\ (ipc.at_path env = ipc.Absent ->
              (env' = env
               \/ ipc.at_path env' = ipc.File (created_readable acc) [])
              /\ (ipc.decode env [] = Some [] -> ipc.check_signal_file env' = Ok false)
              /\ delete_signal_file acc env' = Ok env)).
Proof.
  unfold create_signal_file, touch. split; intros Hpath; rewrite Hpath;
    [reflexivity|].
  destruct env as [n codec]. cbn [ipc.at_path].
  destruct n as [| | |readable content].
  - destruct (may_change_dir acc) eqn:Hdir; cbn [except_OSError_pass];
      (eexists; split; [reflexivity|]);
      (split; [intros H; contradiction|]);
      (split; [intros H; discriminate H|]); intros _.
    + split; [right; reflexivity|]. split.
      * intros Hdec. rewrite check_signal_file_cases. cbn [ipc.at_path put ipc.decode].
        destruct (created_readable acc); [|reflexivity].
        cbn in Hdec. rewrite Hdec. reflexivity.
      * unfold delete_signal_file, unlink, ipc.exists_, put.
        cbn [ipc.at_path ipc.decode bind negb]. rewrite Hdir. reflexivity.
    + split; [left; reflexivity|]. split; reflexivity.
  - eexists. split; [reflexivity|]. split; [reflexivity|].
    split; [trivial|]. intros H. discriminate H.
  - destruct (may_touch acc); cbn [except_OSError_pass];
      (eexists; split; [reflexivity|]); (split; [reflexivity|]);
      (split; [trivial|]); intros H; discriminate H.
  - destruct (may_touch acc); cbn [except_OSError_pass];
      (eexists; split; [reflexivity|]); (split; [reflexivity|]);
      (split; [trivial|]); intros H; discriminate H.
Qed.

Lemma create_signal_file_effect_witness :
  let env := ipc.mkEnv ipc.Absent ipc.utf8_decode in
  create_signal_file (mkAccess true true true true) env = Raise ValueError
  /\ exists env',
       create_signal_file (mkAccess true true true false) env = Ok env'
       /\ (ipc.check_signal_file env = Ok true -> ipc.check_signal_file env' = Ok true).
Proof.
  intros env. split.
  - apply (create_signal_file_effect (mkAccess true true true true) env).
    reflexivity.
  - destruct (create_signal_file_effect (mkAccess true true true false) env)
      as [_ Hok].
    destruct (Hok eq_refl) as (env' & Hrun & _ & Hkeep & _).
    exists env'. split; [exact Hrun | exact Hkeep].
Defined.

(** ** A turn of the game loop *)

Lemma wait_any_key_false (polls : list (option string)) :
  wait_any_key polls = false <->
  Forall (fun k => k = None \/ k = Some ""%string) polls.
Proof.
  induction polls as [|k polls IH]; cbn [wait_any_key].
  - split; [constructor | reflexivity].
  - destruct k as [[|c s]|]; cbn [truthy].
    + rewrite IH. split; [intros H; constructor; auto | intros H; inversion H; auto].
    + split; [discriminate|]. intros H. inversion H as [|? ? [Hk | Hk] _]; discriminate Hk.
    + rewrite IH. split; [intros H; constructor; auto | intros H; inversion H; auto].
Qed.

Lemma poll_signal_keeps (signal_file : option ipc.Env) (state state' : GameState) :
  poll_signal signal_file state = Ok state' ->
  mode state' = mode state
  /\ (state' = state
      \/ status state = PLAYING /\ status state' = PROMPTED).
Proof.
  unfold poll_signal. destruct signal_file as [env|]; [|intros H; injection H as <-; auto].
  destruct (status state) eqn:Hst; cbn [GameStatus_eqb];
    try (intros H; injection H as <-; auto).
  destruct (claude_ready state); cbn [negb];
    [intros H; injection H as <-; auto|].
  destruct (ipc.check_signal_file env) as [[|]|e]; cbn [bind]; intros H;
    try discriminate H; injection H as <-; auto.
Qed.

Lemma handle_input_mode (state : GameState) (config : Config) (key : option string) :
  mode (handle_input state config key) = mode state.
Proof.
  destruct (handle_input_cases state config key)
    as [E | [(k & _ & _ & E) | [(_ & _ & E) | [(k & _ & _ & _ & E)
       | (k & _ & _ & _ & E)]]]]; rewrite E; reflexivity.
Qed.

Lemma update_game_mode (r : Z) (w : World) (config : Config) (w' : World) :
  update_game r w config = Ok w' -> mode (game w') = mode (game w).
Proof.
  intros Hrun.
  destruct (status (game w)) eqn:Hst;
    try (rewrite update_game_idle in Hrun by congruence;
         injection Hrun as <-; reflexivity).
  destruct (update_game_playing_inv r w config w' Hst Hrun)
    as (_ & _ & _ & _ & _ & _ & Hm & _).
  exact Hm.
Qed.

(** X16.  A turn of the loop that completes never leaves the session
    Dead: a death is followed in the same turn by the reset or by the
    exit.  A turn fails to complete only in single-life mode, while
    none of the keys polled is a non-empty string: [None] and the empty
    string do not end the wait. *)
Theorem turn_never_ends_dead (initial_bird : Bird.t) (config : Config)
    (signal_file : option ipc.Env) (key : option string) (r : Z)
    (polls : list (option string)) (w : World) :
  (forall w', loop_turn initial_bird config signal_file key r polls w = Ok (Some w') ->
              status (game w') <> DEAD)
  /\ (loop_turn initial_bird config signal_file key r polls w = Ok None ->
        mode (game w) = SINGLE_LIFE
        /\ Forall (fun k => k = None \/ k = Some ""%string) polls).
Proof.
  unfold loop_turn.
  destruct (poll_signal signal_file (handle_input (game w) config key))
    as [state2|e] eqn:Hpoll; cbn [bind]; [|split; intros; discriminate].
  destruct (update_game r (mkWorld state2 (saves w)) config) as [w3|e] eqn:Hrun;
    cbn [bind]; [|split; intros; discriminate].
  assert (Hmode : mode (game w3) = mode (game w)).
  { rewrite (update_game_mode _ _ _ _ Hrun). cbn [game].
    destruct (poll_signal_keeps _ _ _ Hpoll) as [-> _].
    apply handle_input_mode. }
  destruct (status (game w3)) eqn:Hst3; cbn [GameStatus_eqb].
  - split; [intros w' H; injection H as <-; congruence | discriminate].
  - destruct (mode (game w3)) eqn:Hm3.
    + destruct (wait_any_key polls) eqn:Hwait.
      * split; [intros w' H; injection H as <-; cbn; discriminate | discriminate].
      * split; [discriminate|]. intros _.
        split; [congruence | apply wait_any_key_false; exact Hwait].
    + split; [intros w' H; injection H as <-; cbn; discriminate | discriminate].
  - split; [intros w' H; injection H as <-; congruence | discriminate].
  - split; [intros w' H; injection H as <-; congruence | discriminate].
Qed.

(** X17.  A turn is frozen by the prompt and by the exit.  When the
    key leaves the session Prompted or Exiting, the turn ends with the
    state the key left: the signal file is not read (so even an
    unreadable one cannot fail the turn) and the game does not advance.
    When the session is Playing with the ready flag clear and the
    signal file says ready, the turn sets the flag and the status
    Prompted and the game does not advance either. *)
Theorem turn_frozen (initial_bird : Bird.t) (config : Config)
    (signal_file : option ipc.Env) (key : option string) (r : Z)
    (polls : list (option string)) (w : World) :
  let state := handle_input (game w) config key in
  (status state = PROMPTED \/ status state = EXITING ->
     loop_turn initial_bird config signal_file key r polls w
     = Ok (Some (mkWorld state (saves w))))
  /\ (forall env,
        signal_file = Some env ->
        status state = PLAYING -> claude_ready state = false ->
        ipc.check_signal_file env = Ok true ->
        loop_turn initial_bird config signal_file key r polls w
        = Ok (Some (mkWorld
                      (mkGameState (bird state) (pipes state) (score state)
                         (high_score state) PROMPTED (mode state) true)
                      (saves w)))).
Proof.
  cbn zeta. split.
  - intros Hst. unfold loop_turn.
    assert (Hpoll : poll_signal signal_file (handle_input (game w) config key)
                    = Ok (handle_input (game w) config key)).
    { unfold poll_signal. destruct signal_file; [|reflexivity].
      destruct Hst as [-> | ->]; reflexivity. }
    rewrite Hpoll. cbn [bind].
    rewrite update_game_idle by (cbn [game]; destruct Hst as [-> | ->]; discriminate).
    cbn [bind game]. destruct Hst as [-> | ->]; reflexivity.
  - intros env -> Hst Hflag Hready. unfold loop_turn, poll_signal.
    rewrite Hst, Hflag, Hready. cbn [GameStatus_eqb negb bind].
    rewrite update_game_idle by (cbn; discriminate).
    reflexivity.
Qed.

Lemma turn_frozen_witness :
  let w := mkWorld (mkGameState (Bird.mk 15 (10 # 1) 0) [Pipe.mk 30 9 7 false]
                      2 4 PLAYING AUTO_RESTART false) [4] in
  let unreadable := ipc.mkEnv (ipc.File true [Byte.xff]) ipc.utf8_decode in
  loop_turn (Bird.mk 15 (10 # 1) 0) DEFAULT_CONFIG (Some unreadable)
            (Some "q"%string) 0 [] w
  = Ok (Some (mkWorld (set_status (game w) EXITING) (saves w))).
Proof.
  intros w unreadable.
  destruct (turn_frozen (Bird.mk 15 (10 # 1) 0) DEFAULT_CONFIG (Some unreadable)
              (Some "q"%string) 0 [] w) as [Hfrozen _].
  apply Hfrozen. right. reflexivity.
Defined.

(** X18.  An undecodable signal file ends the game loop: in a turn
    whose key has been read, when a signal file is given, the session
    is Playing with the ready flag clear after the key, and the file is
    a readable one that the codec cannot decode, the turn raises
    [UnicodeDecodeError], which nothing in the loop catches. *)
Theorem turn_raises_on_undecodable_signal (initial_bird : Bird.t) (config : Config)
    (env : ipc.Env) (content : list Byte.byte) (key : option string) (r : Z)
    (polls : list (option string)) (w : World) :
  status (handle_input (game w) config key) = PLAYING ->
  claude_ready (handle_input (game w) config key) = false ->
  ipc.at_path env = ipc.File true content ->
  ipc.decode env content = None ->
  loop_turn initial_bird config (Some env) key r polls w = Raise UnicodeDecodeError.
Proof.
  intros Hst Hflag Hnode Hdec.
  unfold loop_turn, poll_signal. rewrite Hst, Hflag. cbn [GameStatus_eqb negb].
  rewrite check_signal_file_cases, Hnode, Hdec. reflexivity.
Qed.

Lemma turn_raises_on_undecodable_signal_witness :
  let w := mkWorld (mkGameState (Bird.mk 15 (10 # 1) 0) [Pipe.mk 30 9 7 false]
                      2 4 PLAYING AUTO_RESTART false) [4] in
  let undecodable := ipc.mkEnv (ipc.File true [Byte.xff]) ipc.utf8_decode in
  loop_turn (Bird.mk 15 (10 # 1) 0) DEFAULT_CONFIG (Some undecodable)
            (Some " "%string) 0 [] w
  = Raise UnicodeDecodeError.
Proof.
  intros w undecodable.
  apply (turn_raises_on_undecodable_signal (Bird.mk 15 (10 # 1) 0) DEFAULT_CONFIG
           undecodable [Byte.xff] (Some " "%string) 0 [] w).
  - reflexivity.
  - reflexivity.
  - reflexivity.
  - vm_compute. reflexivity.
Defined.

(** ** The end of a session *)

(** X19.  Exiting is final: once the status is Exiting, no key, no
    signal and no frame changes anything of the state or of the saves
    (only a reset, which the loop never performs then, would). *)
Theorem exiting_is_final (config : Config) (acts : list action) (w : World) :
  status (game w) = EXITING ->
  Forall (fun a => forall b, a <> Restart b) acts ->
  run config acts w = Ok w.
Proof.
  intros Hst Hacts. induction Hacts as [|a rest Ha _ IH]; cbn [run]; [reflexivity|].
  assert (Hstep : perform config a w = Ok w).
  { destruct w as [state saved]. cbn [game] in Hst.
    destruct a as [key | ready | r | b0]; cbn [perform game saves].
    - f_equal. f_equal.
      destruct (handle_input_cases state config key)
        as [E | [(k & _ & _ & E) | [(_ & Hp & _) | [(k & _ & _ & Hp & _)
           | (k & _ & _ & Hp & _)]]]]; try congruence.
      rewrite E. destruct state. cbn in *. subst. reflexivity.
    - f_equal. f_equal. unfold observe_signal. rewrite Hst. reflexivity.
    - apply update_game_idle. cbn [game]. congruence.
    - exfalso. apply (Ha b0). reflexivity. }
  rewrite Hstep. cbn [bind]. exact IH.
Qed.

Lemma exiting_is_final_witness :
  let w := mkWorld (mkGameState (Bird.mk 15 (10 # 1) 0) [Pipe.mk 30 9 7 false]
                      2 4 EXITING SINGLE_LIFE true) [4] in
  run DEFAULT_CONFIG
      [Key (Some " "%string); Signal true; Frame 3; Key (Some "n"%string); Frame 1] w
  = Ok w.
Proof.
  intros w. apply exiting_is_final.
  - reflexivity.
  - repeat constructor; discriminate.
Defined.
